(** * amqp-wrapper: the connection handshake and the delivery contract

    A shallow embedding of [lib/amqp.js].  JavaScript values live in a heap of
    objects (so that a message may refer to itself), synchronous code runs in a
    small state-and-exception monad over the calls it makes on the transport,
    and the callback chain of [connect] is a tree of transport calls, each
    answered by the environment. *)

From Stdlib Require Import ZArith String Ascii List Lia.
From stdpp Require Import base tactics option list gmap strings pretty.

Set Warnings "-register-all".
Local Open Scope string_scope.
Local Open Scope Z_scope.

(** ** JavaScript values *)

Module JS.

Definition loc := nat.

Inductive error_kind := Error | TypeError | SyntaxError | RangeError.

(** Numbers are restricted to the integers; error objects are immutable and
    carried as values; every other object lives in the heap. *)
Inductive value :=
| VUndefined
| VNull
| VBool (b : bool)
| VNum (n : Z)
| VStr (s : string)
| VError (k : error_kind) (msg : string)
| VRef (l : loc).

Inductive object :=
| Obj (props : list (string * value))
| Arr (items : list value).

Abbreviation heap := (gmap loc object).

(** The outcome of evaluating an expression or running a statement. *)
Inductive completion (A : Type) :=
| Normal (a : A)
| Thrown (e : value).
Arguments Normal {A} a.
Arguments Thrown {A} e.

(** [if (v)], [!v], [a || b], [a && b] all go through ToBoolean. *)
Definition truthy (v : value) : bool :=
  match v with
  | VUndefined | VNull => false
  | VBool b => b
  | VNum n => negb (Z.eqb n 0)
  | VStr s => negb (String.eqb s EmptyString)
  | VError _ _ | VRef _ => true
  end.

Definition js_or (a b : value) : value := if truthy a then a else b.

Definition typeof (v : value) : string :=
  match v with
  | VUndefined => "undefined"
  | VNull | VError _ _ | VRef _ => "object"
  | VBool _ => "boolean"
  | VNum _ => "number"
  | VStr _ => "string"
  end.

Fixpoint assoc (k : string) (props : list (string * value)) : option value :=
  match props with
  | [] => None
  | (k', v) :: rest => if String.eqb k k' then Some v else assoc k rest
  end.

Fixpoint assoc_set (k : string) (v : value) (props : list (string * value))
  : list (string * value) :=
  match props with
  | [] => [(k, v)]
  | (k', v') :: rest =>
      if String.eqb k k' then (k, v) :: rest else (k', v') :: assoc_set k v rest
  end.

Definition cannot_read (k : string) (o : value) : value :=
  VError TypeError
    ("Cannot read property '" ++ k ++ "' of " ++
     match o with VNull => "null" | _ => "undefined" end).

(** [o.k].  Reading a property of [undefined] or [null] throws; a missing
    property reads as [undefined]; primitives have none of the properties this
    program names. *)
Definition get (h : heap) (o : value) (k : string) : completion value :=
  match o with
  | VUndefined | VNull => Thrown (cannot_read k o)
  | VRef l =>
      match h !! l with
      | Some (Obj props) => Normal (default VUndefined (assoc k props))
      | Some (Arr items) =>
          Normal (if String.eqb k "length"
                  then VNum (Z.of_nat (length items)) else VUndefined)
      | None => Normal VUndefined
      end
  | VError _ msg =>
      Normal (if String.eqb k "message" then VStr msg else VUndefined)
  | VBool _ | VNum _ | VStr _ => Normal VUndefined
  end.

(** [o.k = v] on an object of the heap. *)
Definition set (h : heap) (o : value) (k : string) (v : value) : completion heap :=
  match o with
  | VUndefined | VNull =>
      Thrown (VError TypeError ("Cannot set property '" ++ k ++ "' of undefined"))
  | VRef l =>
      match h !! l with
      | Some (Obj props) => Normal (<[l := Obj (assoc_set k v props)]> h)
      | _ => Normal h
      end
  | _ => Thrown (VError TypeError ("Cannot create property '" ++ k ++ "'"))
  end.

(** [v instanceof Array] *)
Definition instanceof_Array (h : heap) (v : value) : bool :=
  match v with
  | VRef l => match h !! l with Some (Arr _) => true | _ => false end
  | _ => false
  end.

End JS.
Export JS.

(** ** The transport and the synchronous monad *)

Module Transport.

(** Connections and channels are objects of the transport, known to this
    program only as handles. *)
Definition handle := nat.

(** An inbound delivery: its payload bytes and the tag the broker gave it. *)
Record delivery := { content : string; deliveryTag : nat }.

(** Every call the wrapper makes on [amqplib] and on [./queue-setup], with the
    arguments it passes.  Completion callbacks are handed over untouched and
    are left out; the options literal of [assertExchange] is always empty. *)
Inductive tcall :=
| t_connect (url : value)
| t_createConfirmChannel (conn : handle)
| t_assertExchange (ch : handle) (exchange : value) (type : string)
| t_setupForPublish (ch : handle) (config : value)
| t_setupForConsume (ch : handle) (config : value)
| t_publish (ch : handle) (exchange routingKey : value) (bytes : string)
    (options : value)
| t_consume (ch : handle) (queue : value) (noAck : bool)
| t_ack (ch : handle) (message : delivery)
| t_nack (ch : handle) (message : delivery) (allUpTo : bool) (requeue : value).

(** What a completion callback [function(err, result)] receives. *)
Record reply := { r_err : value; r_result : handle }.

End Transport.
Export Transport.

Module Sync.

(** What a synchronous turn can touch: the heap, the transport (the calls made
    on it so far, oldest first) and the console. *)
Record world := {
  w_heap : heap;
  w_calls : list tcall;
  w_console : list value
}.

Definition js (A : Type) : Type := world -> completion A * world.

Definition ret {A} (a : A) : js A := fun w => (Normal a, w).

Definition bind {A B} (m : js A) (f : A -> js B) : js B :=
  fun w => match m w with
           | (Normal a, w') => f a w'
           | (Thrown e, w') => (Thrown e, w')
           end.

Definition throw {A} (e : value) : js A := fun w => (Thrown e, w).

(** [try { body } catch (error) { handler(error) }] *)
Definition try_catch {A} (body : js A) (handler : value -> js A) : js A :=
  fun w => match body w with
           | (Normal a, w') => (Normal a, w')
           | (Thrown e, w') => handler e w'
           end.

Definition lift {A} (c : heap -> completion A) : js A :=
  fun w => (c (w_heap w), w).

Definition call (c : tcall) : js unit :=
  fun w => (Normal tt,
            {| w_heap := w_heap w; w_calls := w_calls w ++ [c];
               w_console := w_console w |}).

Definition console_log (v : value) : js unit :=
  fun w => (Normal tt,
            {| w_heap := w_heap w; w_calls := w_calls w;
               w_console := w_console w ++ [v] |}).

Definition store (k : string) (o v : value) : js unit :=
  fun w => match set (w_heap w) o k v with
           | Normal h' => (Normal tt,
                           {| w_heap := h'; w_calls := w_calls w;
                              w_console := w_console w |})
           | Thrown e => (Thrown e, w)
           end.

(** An object literal: a fresh object of the heap. *)
Definition alloc (o : object) : js value :=
  fun w => let l := fresh (dom (w_heap w)) in
           (Normal (VRef l),
            {| w_heap := <[l := o]> (w_heap w); w_calls := w_calls w;
               w_console := w_console w |}).

Notation "x <- m ;; k" := (bind m (fun x => k))
  (at level 100, m at next level, right associativity).
Notation "m ;;; k" := (bind m (fun _ => k))
  (at level 100, right associativity).

End Sync.
Export Sync.

(** ** [json-stringify-safe] *)

Module Serializer.

Definition dquote : string := String "034"%char EmptyString.
Definition backslash : string := String "092"%char EmptyString.

Definition hex_digit (n : nat) : ascii :=
  nth n (list_ascii_of_string "0123456789abcdef") "0"%char.

(** The escape JSON gives one character of a string. *)
Definition escape_char (c : ascii) : string :=
  let n := nat_of_ascii c in
  if Nat.eqb n 34 then backslash ++ dquote
  else if Nat.eqb n 92 then backslash ++ backslash
  else if Nat.eqb n 8 then backslash ++ "b"
  else if Nat.eqb n 12 then backslash ++ "f"
  else if Nat.eqb n 10 then backslash ++ "n"
  else if Nat.eqb n 13 then backslash ++ "r"
  else if Nat.eqb n 9 then backslash ++ "t"
  else if Nat.ltb n 32
       then backslash ++ "u00" ++
            String (hex_digit (n / 16)) (String (hex_digit (n mod 16)) EmptyString)
  else String c EmptyString.

Fixpoint escape (s : string) : string :=
  match s with
  | EmptyString => EmptyString
  | String c rest => escape_char c ++ escape rest
  end.

Definition json_quote (s : string) : string := dquote ++ escape s ++ dquote.

Fixpoint join (sep : string) (parts : list string) : string :=
  match parts with
  | [] => EmptyString
  | [p] => p
  | p :: rest => p ++ sep ++ join sep rest
  end.

Fixpoint index_of (l : loc) (stack : list loc) : option nat :=
  match stack with
  | [] => None
  | x :: rest => if Nat.eqb l x then Some O else S <$> index_of l rest
  end.

(** Modelled from the spec: the serializer of [json-stringify-safe], which is
    not among the sources.  Its replacer keeps the stack of the objects that
    enclose the value being written and the keys that lead to it; a value that
    is one of these objects is a cycle and is replaced by a string that names
    the place it points back to. *)
Definition cycleReplacer (stack : list loc) (keys : list string) (v : value)
  : value :=
  match v with
  | VRef l =>
      match index_of l stack with
      | Some O => VStr "[Circular ~]"
      | Some i => VStr ("[Circular ~." ++ join "." (take i keys) ++ "]")
      | None => v
      end
  | _ => v
  end.

Definition member (text : option string) (k : string) : option string :=
  (fun s => json_quote k ++ ":" ++ s) <$> text.

(** Modelled from the spec: [JSON.stringify] under that replacer.  The outer
    [None] is a stack that ran out; the inner one is a value JSON leaves out
    ([undefined]).  Properties that are left out vanish from an object and read
    [null] in an array.  A location the heap does not list is an object with
    no properties, as it is for [get]. *)
Fixpoint stringify (fuel : nat) (h : heap) (stack : list loc)
  (keys : list string) (v : value) {struct fuel} : option (option string) :=
  match fuel with
  | O => None
  | S fuel' =>
      match cycleReplacer stack keys v with
      | VUndefined => Some None
      | VNull => Some (Some "null")
      | VBool b => Some (Some (if b then "true" else "false"))
      | VNum n => Some (Some (pretty n))
      | VStr s => Some (Some (json_quote s))
      | VError _ _ => Some (Some "{}")
      | VRef l =>
          match h !! l with
          | None => Some (Some "{}")
          | Some (Obj props) =>
              parts ← mapM (fun kv : string * value =>
                              (fun text => member text kv.1) <$>
                                stringify fuel' h (stack ++ [l])
                                  (keys ++ [kv.1]) kv.2) props;
              Some (Some ("{" ++ join "," (omap id parts) ++ "}"))
          | Some (Arr items) =>
              parts ← mapM (fun iv : nat * value =>
                              default "null" <$>
                                stringify fuel' h (stack ++ [l])
                                  (keys ++ [pretty iv.1]) iv.2)
                           (imap pair items);
              Some (Some ("[" ++ join "," parts ++ "]"))
          end
      end
  end.

(** Modelled from the spec: [stringifysafe(message)].  The stack never holds
    an object twice, so one frame per object of the heap, and one more, is
    all it can need. *)
Definition stringifysafe (h : heap) (v : value) : completion value :=
  match stringify (S (size h)) h [] [] v with
  | Some (Some s) => Normal (VStr s)
  | Some None => Normal VUndefined
  | None => Thrown (VError RangeError "Maximum call stack size exceeded")
  end.

End Serializer.
Export Serializer.

(** ** The wrapper: construction and the publish paths *)

Module Gateway.

(** The variables the methods close over: [config] and [var channel]. *)
Record closure := { config : value; channel : option handle }.

(** [_.find(collection, {'name': name})]: the first element whose [name] is
    the one asked for, [undefined] when there is none or nothing to search. *)
Definition has_name (h : heap) (name : string) (item : value) : bool :=
  match get h item "name" with
  | Normal (VStr s) => String.eqb s name
  | _ => false
  end.

Definition elements_of (h : heap) (collection : value) : list value :=
  match collection with
  | VRef l =>
      match h !! l with
      | Some (Arr items) => items
      | Some (Obj props) => map snd props
      | None => []
      end
  | _ => []
  end.

Definition lodash_find (h : heap) (collection : value) (name : string) : value :=
  default VUndefined (List.find (has_name h name) (elements_of h collection)).

(** [new Buffer(message)]: the bytes of a string; a number asks for that many
    zero bytes; nothing else this program can pass is accepted. *)
Definition Buffer_new (v : value) : completion string :=
  match v with
  | VStr s => Normal s
  | VNum n =>
      if n <? 0
      then Thrown (VError RangeError "size argument must not be negative")
      else Normal (string_of_list_ascii (repeat zero (Z.to_nat n)))
  | _ => Thrown (VError TypeError "First argument must be a string or a number")
  end.

(** [channel.method]: reading a method of [channel] before [connect] has
    assigned it throws. *)
Definition channel_method (cl : closure) (method : string) : js handle :=
  match channel cl with
  | Some ch => ret ch
  | None => throw (cannot_read method VUndefined)
  end.

(** [!config || !config.url || !config.exchange], left to right, each
    operand read only when the ones before it are false. *)
Definition invalid_config (config : value) : js bool :=
  if negb (truthy config) then ret true
  else
    url <- lift (fun h => get h config "url") ;;
    if negb (truthy url) then ret true
    else
      exchange <- lift (fun h => get h config "exchange") ;;
      ret (negb (truthy exchange)).

(** [module.exports = function(config) { ... return ret; }] *)
Definition amqp_wrapper (config : value) : js closure :=
  invalid <- invalid_config config ;;
  if (invalid : bool)
  then throw (VError Error "amqp-wrapper: Invalid config")
  else
    prefetch <- lift (fun h => get h config "prefetch") ;;
    store "prefetch" config (js_or prefetch (VNum 10)) ;;;
    ret {| config := config; channel := None |}.

(** [if (typeof message === 'object') message = stringifysafe(message);] *)
Definition serialize (message : value) : js value :=
  if String.eqb (typeof message) "object"
  then lift (fun h => stringifysafe h message)
  else ret message.

Definition publishToQueue (cl : closure) (name : string) (message : value)
  : js unit :=
  message <- serialize message ;;
  queues <- lift (fun h => get h (config cl) "queues") ;;
  publish <- lift (fun h => get h queues "publish") ;;
  publishQueue <- lift (fun h => Normal (lodash_find h publish name)) ;;
  ch <- channel_method cl "publish" ;;
  exchange <- lift (fun h => get h (config cl) "exchange") ;;
  routingKey <- lift (fun h => get h publishQueue "routingKey") ;;
  bytes <- lift (fun _ => Buffer_new message) ;;
  options <- alloc (Obj []) ;;
  call (t_publish ch exchange routingKey bytes options).

Definition publish (cl : closure) (routingKey message options : value)
  : js unit :=
  message <- serialize message ;;
  ch <- channel_method cl "publish" ;;
  exchange <- lift (fun h => get h (config cl) "exchange") ;;
  bytes <- lift (fun _ => Buffer_new message) ;;
  call (t_publish ch exchange routingKey bytes options).

End Gateway.
Export Gateway.

(** ** The delivery dispatcher *)

Module Dispatcher.

(** What a handler does with one payload, as far as the dispatcher can tell:
    the calls it makes to [done] before it returns or throws, and the calls
    it makes in later turns of the event loop.  An omitted [requeue] is
    [VUndefined]. *)
Inductive handler_run :=
| h_done (err requeue : value) (rest : handler_run)
| h_return (later : list (value * value))
| h_throw (e : value) (later : list (value * value)).

Fixpoint later (r : handler_run) : list (value * value) :=
  match r with
  | h_done _ _ rest => later rest
  | h_return l | h_throw _ l => l
  end.

(** The turns of the event loop that follow one another: an exception that
    escapes one ends that turn only. *)
Fixpoint turns (ts : list (js unit)) : js unit :=
  match ts with
  | [] => ret tt
  | t :: rest => fun w => turns rest (t w).2
  end.

(** [function done(err, requeue)] of the delivery [message] *)
Definition done (cl : closure) (message : delivery) (err requeue : value)
  : js unit :=
  let requeue := match requeue with VUndefined => VBool false | _ => requeue end in
  if truthy err
  then ch <- channel_method cl "nack" ;; call (t_nack ch message false requeue)
  else ch <- channel_method cl "ack" ;; call (t_ack ch message).

Section consume.

(** [JSON.parse] is the platform's: [None] stands for the [SyntaxError] it
    throws. *)
Variable parsed : Type.
Variable JSON_parse : string -> option parsed.
Variable handleMessage : parsed -> handler_run.
Variable cl : closure.

Definition parse (text : string) : js parsed :=
  match JSON_parse text with
  | Some p => ret p
  | None => throw (VError SyntaxError "Unexpected token in JSON")
  end.

(** [handleMessage(parsedPayload, done)], up to its return or throw *)
Fixpoint invoke (message : delivery) (r : handler_run) : js unit :=
  match r with
  | h_done err requeue rest =>
      done cl message err requeue ;;; invoke message rest
  | h_return _ => ret tt
  | h_throw e _ => throw e
  end.

(** [function callback(message)] *)
Definition callback (message : delivery) : js unit :=
  try_catch
    (messagePayload <- ret (content message) ;;
     parsedPayload <- parse messagePayload ;;
     invoke message (handleMessage parsedPayload))
    (fun error =>
       console_log error ;;;
       done cl message error (VBool false)).

(** One delivery from the transport to the end: the callback, then whatever
    the handler left for later turns. *)
Definition deliver (message : delivery) : js unit :=
  turns (callback message ::
         match JSON_parse (content message) with
         | Some p =>
             map (fun er => done cl message er.1 er.2) (later (handleMessage p))
         | None => []
         end).

(** [consume: function(handleMessage)] *)
Definition consume : js unit :=
  ch <- channel_method cl "consume" ;;
  queues <- lift (fun h => get h (config cl) "queues") ;;
  target <- lift (fun h => get h queues "consume") ;;
  name <- lift (fun h => get h target "name") ;;
  call (t_consume ch name false).

End consume.

(** The acks and nacks among the calls made on the transport. *)
Definition is_resolution (c : tcall) : bool :=
  match c with
  | t_ack _ _ | t_nack _ _ _ _ => true
  | _ => false
  end.

Definition resolutions (calls : list tcall) : list tcall :=
  List.filter is_resolution calls.

End Dispatcher.
Export Dispatcher.

(** ** The connection handshake *)

Module Handshake.

(** A chain of callbacks: every function of [connect] ends by making one call
    on the transport and naming the function that takes its completion, by
    calling back, or by throwing into the event loop. *)
Inductive proc :=
| Stop
| Call (c : tcall) (k : reply -> proc)
| Callback (err : value) (k : proc)
| Assign (ch : handle) (k : proc)
| Uncaught (e : value).

Inductive event :=
| Issued (c : tcall)
| Completed (c : tcall) (r : reply)
| CalledBack (err : value)
| Escaped (e : value).

(** The environment answers a call with what its completion callback gets, or
    never ([None]). *)
Definition environment := tcall -> option reply.

(** What happens, in order, and what [var channel] holds in the end. *)
Fixpoint run (env : environment) (chan : option handle) (p : proc)
  : list event * option handle :=
  match p with
  | Stop => ([], chan)
  | Call c k =>
      match env c with
      | Some r =>
          let out := run env chan (k r) in
          (Issued c :: Completed c r :: out.1, out.2)
      | None => ([Issued c], chan)
      end
  | Callback err k =>
      let out := run env chan k in (CalledBack err :: out.1, out.2)
  | Assign ch k => run env (Some ch) k
  | Uncaught e => ([Escaped e], chan)
  end.

Notation "'get!' x ':=' c 'in' p" :=
  (match c with Normal x => p | Thrown e => Uncaught e end)
  (at level 10, x name, c at level 100, p at level 200).

Definition task := (value -> proc) -> proc.

(** [async.series(tasks, callback)]: each task runs once the one before it has
    called back; the first error ends the series and goes to [callback]; with
    no error [callback] gets [null] when the last task is done. *)
Fixpoint async_series (tasks : list task) (callback : value -> proc) : proc :=
  match tasks with
  | [] => callback VNull
  | t :: rest =>
      t (fun err => if truthy err then callback err
                    else async_series rest callback)
  end.

Section connect.

Variable h : heap.
Variable config : value.
Variable cb : value -> proc.

Definition publish_task (channel : handle) : task :=
  fun callback =>
    Call (t_setupForPublish channel config) (fun r => callback (r_err r)).

Definition consume_task (channel : handle) : task :=
  fun callback =>
    Call (t_setupForConsume channel config) (fun r => callback (r_err r)).

(** [config.queues.publish && config.queues.publish instanceof Array] *)
Definition wants_publish (publish : value) : bool :=
  truthy publish && instanceof_Array h publish.

Definition assertQueues (channel : handle) (r : reply) : proc :=
  if truthy (r_err r) then cb (r_err r)
  else
    get! queues := get h config "queues" in
    get! publish := get h queues "publish" in
    let tasks := if wants_publish publish then [publish_task channel] else [] in
    get! consume := get h queues "consume" in
    get! name := (if truthy consume then get h consume "name"
                  else Normal consume) in
    let tasks := if truthy name then (tasks ++ [consume_task channel])%list
                 else tasks in
    async_series tasks cb.

Definition assertExchange (r : reply) : proc :=
  if truthy (r_err r) then cb (r_err r)
  else
    let ch := r_result r in
    Assign ch
      (get! exchange := get h config "exchange" in
       Call (t_assertExchange ch exchange "topic") (assertQueues ch)).

Definition createChannel (r : reply) : proc :=
  if truthy (r_err r) then cb (r_err r)
  else Call (t_createConfirmChannel (r_result r)) assertExchange.

Definition connect : proc :=
  get! url := get h config "url" in
  Call (t_connect url) createChannel.

End connect.

(** The callback the caller of [connect] passes: it is told and does nothing
    the wrapper can see. *)
Definition told (err : value) : proc := Callback err Stop.

End Handshake.
Export Handshake.

(** ** A reader of JSON text *)

Module JsonText.

(** The values JSON text denotes; a number is [mantissa * 10 ^ exponent]. *)
Inductive json :=
| JNull
| JBool (b : bool)
| JNum (mantissa exponent : Z)
| JStr (s : string)
| JArr (items : list json)
| JObj (members : list (string * json)).

Definition chars := list ascii.
Definition parser (A : Type) := chars -> option (A * chars).

Definition is_ws (c : ascii) : bool :=
  let n := nat_of_ascii c in
  Nat.eqb n 32 || Nat.eqb n 9 || Nat.eqb n 10 || Nat.eqb n 13.

Fixpoint skip_ws (cs : chars) : chars :=
  match cs with
  | c :: rest => if is_ws c then skip_ws rest else cs
  | [] => []
  end.

Definition digit_of (c : ascii) : option Z :=
  let n := nat_of_ascii c in
  if Nat.leb 48 n && Nat.leb n 57 then Some (Z.of_nat (n - 48)) else None.

Definition hex_of (c : ascii) : option nat :=
  let n := nat_of_ascii c in
  if Nat.leb 48 n && Nat.leb n 57 then Some (n - 48)%nat
  else if Nat.leb 97 n && Nat.leb n 102 then Some (n - 87)%nat
  else if Nat.leb 65 n && Nat.leb n 70 then Some (n - 55)%nat
  else None.

(** A run of digits: the number read so far, how many digits, the rest. *)
Fixpoint digits (cs : chars) (acc : Z) (count : nat) : Z * nat * chars :=
  match cs with
  | c :: rest =>
      match digit_of c with
      | Some d => digits rest (10 * acc + d) (S count)
      | None => (acc, count, cs)
      end
  | [] => (acc, count, [])
  end.

Definition expect (word : string) (v : json) : parser json :=
  fun cs =>
    let w := list_ascii_of_string word in
    if decide (take (length w) cs = w) then Some (v, drop (length w) cs)
    else None.

Definition exponent_part (cs : chars) : option (Z * chars) :=
  match cs with
  | c :: rest =>
      if Ascii.eqb c "e" || Ascii.eqb c "E" then
        let '(sign, rest) :=
          match rest with
          | s :: rest' =>
              if Ascii.eqb s "-" then (-1, rest')
              else if Ascii.eqb s "+" then (1, rest') else (1, rest)
          | [] => (1, rest)
          end in
        let '(e, n, rest) := digits rest 0 0 in
        if Nat.eqb n 0 then None else Some (sign * e, rest)
      else Some (0, cs)
  | [] => Some (0, [])
  end.

Definition fraction_part (int : Z) (cs : chars) : option (Z * Z * chars) :=
  match cs with
  | c :: rest =>
      if Ascii.eqb c "." then
        let '(m, n, rest) := digits rest int 0 in
        if Nat.eqb n 0 then None else Some (m, - Z.of_nat n, rest)
      else Some (int, 0, cs)
  | [] => Some (int, 0, [])
  end.

Definition number : parser json :=
  fun cs =>
    let '(sign, cs) :=
      match cs with
      | c :: rest => if Ascii.eqb c "-" then (-1, rest) else (1, cs)
      | [] => (1, cs)
      end in
    int ← match cs with
          | c :: rest =>
              if Ascii.eqb c "0" then Some (0, rest)
              else let '(i, n, rest') := digits cs 0 0 in
                   if Nat.eqb n 0 then None else Some (i, rest')
          | [] => None
          end;
    frac ← fraction_part int.1 int.2;
    exp ← exponent_part frac.2;
    Some (JNum (sign * frac.1.1) (frac.1.2 + exp.1), exp.2).

(** The bytes UTF-8 gives a code unit. *)
Definition utf8 (n : nat) : chars :=
  (if Nat.ltb n 128 then [ascii_of_nat n]
   else if Nat.ltb n 2048
        then [ascii_of_nat (192 + n / 64); ascii_of_nat (128 + n mod 64)]
   else [ascii_of_nat (224 + n / 4096); ascii_of_nat (128 + (n / 64) mod 64);
         ascii_of_nat (128 + n mod 64)])%nat.

Definition unescape (c : ascii) : option ascii :=
  let n := nat_of_ascii c in
  if Nat.eqb n 34 || Nat.eqb n 92 || Nat.eqb n 47 then Some c
  else if Ascii.eqb c "b" then Some (ascii_of_nat 8)
  else if Ascii.eqb c "f" then Some (ascii_of_nat 12)
  else if Ascii.eqb c "n" then Some (ascii_of_nat 10)
  else if Ascii.eqb c "r" then Some (ascii_of_nat 13)
  else if Ascii.eqb c "t" then Some (ascii_of_nat 9)
  else None.

(** The inside of a string, after its opening quote, to its closing one. *)
Fixpoint string_body (cs : chars) (acc : chars) : option (string * chars) :=
  match cs with
  | [] => None
  | c :: rest =>
      let n := nat_of_ascii c in
      if Nat.eqb n 34 then Some (string_of_list_ascii (rev acc), rest)
      else if Nat.ltb n 32 then None
      else if Nat.eqb n 92 then
        match rest with
        | e :: rest' =>
            if Ascii.eqb e "u" then
              match rest' with
              | a :: b :: c' :: d :: rest'' =>
                  match hex_of a, hex_of b, hex_of c', hex_of d with
                  | Some a, Some b, Some c', Some d =>
                      string_body rest''
                        (rev (utf8 (a * 4096 + b * 256 + c' * 16 + d)%nat)
                           ++ acc)%list
                  | _, _, _, _ => None
                  end
              | _ => None
              end
            else
              match unescape e with
              | Some x => string_body rest' (x :: acc)
              | None => None
              end
        | [] => None
        end
      else string_body rest (c :: acc)
  end.

Definition quoted : parser string :=
  fun cs =>
    match cs with
    | c :: rest =>
        if Nat.eqb (nat_of_ascii c) 34 then string_body rest [] else None
    | [] => None
    end.

Section containers.

Variable value_at : parser json.

(** [value , value , ... ]] after the opening bracket *)
Fixpoint elements (n : nat) (cs : chars) (acc : list json) : option (json * chars) :=
  match n with
  | O => None
  | S n' =>
      item ← value_at cs;
      match skip_ws item.2 with
      | c :: rest =>
          if Ascii.eqb c "," then elements n' rest (item.1 :: acc)
          else if Ascii.eqb c "]" then Some (JArr (rev (item.1 :: acc)), rest)
          else None
      | [] => None
      end
  end.

(** [key : value , ... }] after the opening brace *)
Fixpoint members (n : nat) (cs : chars) (acc : list (string * json))
  : option (json * chars) :=
  match n with
  | O => None
  | S n' =>
      key ← quoted (skip_ws cs);
      match skip_ws key.2 with
      | colon :: rest =>
          if Ascii.eqb colon ":" then
            item ← value_at rest;
            match skip_ws item.2 with
            | c :: rest' =>
                if Ascii.eqb c ","
                then members n' rest' ((key.1, item.1) :: acc)
                else if Ascii.eqb c "}"
                then Some (JObj (rev ((key.1, item.1) :: acc)), rest')
                else None
            | [] => None
            end
          else None
      | [] => None
      end
  end.

End containers.

(** One value, with the blanks around it left to the caller.  [fuel] bounds
    the nesting, which the length of the text bounds in turn. *)
Fixpoint value_at (fuel : nat) (cs : chars) : option (json * chars) :=
  match fuel with
  | O => None
  | S fuel' =>
      match skip_ws cs with
      | [] => None
      | c :: rest =>
          if Ascii.eqb c "{" then
            match skip_ws rest with
            | c' :: rest' =>
                if Ascii.eqb c' "}" then Some (JObj [], rest')
                else members (value_at fuel') (length cs) rest []
            | [] => None
            end
          else if Ascii.eqb c "[" then
            match skip_ws rest with
            | c' :: rest' =>
                if Ascii.eqb c' "]" then Some (JArr [], rest')
                else elements (value_at fuel') (length cs) rest []
            | [] => None
            end
          else if Nat.eqb (nat_of_ascii c) 34
               then (fun r => (JStr r.1, r.2)) <$> string_body rest []
          else if Ascii.eqb c "t" then expect "true" (JBool true) (c :: rest)
          else if Ascii.eqb c "f" then expect "false" (JBool false) (c :: rest)
          else if Ascii.eqb c "n" then expect "null" JNull (c :: rest)
          else number (c :: rest)
      end
  end.

(** The whole text is one value and blanks. *)
Definition parse_text (text : string) : option json :=
  let cs := list_ascii_of_string text in
  match value_at (S (length cs)) cs with
  | Some (v, rest) => match skip_ws rest with [] => Some v | _ => None end
  | None => None
  end.

End JsonText.
Export JsonText.

(** ** The vocabulary of the statements *)

Module Vocabulary.

Definition nullish (v : value) : bool :=
  match v with VUndefined | VNull => true | _ => false end.

(** What [o.k] reads, [undefined] where the read would throw. *)
Definition field (h : heap) (o : value) (k : string) : value :=
  match get h o k with Normal v => v | Thrown _ => VUndefined end.

(** A configuration of the documented shape: a url, an exchange and a
    [queues] object. *)
Definition valid_config (h : heap) (config : value) : bool :=
  truthy (field h config "url") && truthy (field h config "exchange")
  && negb (nullish (field h config "queues")).

(** The publish targets of a configuration. *)
Definition publish_targets (h : heap) (config : value) : list value :=
  elements_of h (field h (field h config "queues") "publish").

Definition with_calls (w : world) (calls : list tcall) : world :=
  {| w_heap := w_heap w; w_calls := calls; w_console := w_console w |}.

Definition with_heap (w : world) (h : heap) : world :=
  {| w_heap := h; w_calls := w_calls w; w_console := w_console w |}.

(** The call [done(err, requeue)] makes on the channel [ch]. *)
Definition resolution (ch : handle) (message : delivery) (er : value * value)
  : tcall :=
  if truthy er.1
  then t_nack ch message false
         (match er.2 with VUndefined => VBool false | _ => er.2 end)
  else t_ack ch message.

(** The calls of [done] a handler makes before it returns or throws. *)
Fixpoint resolves_now (r : handler_run) : list (value * value) :=
  match r with
  | h_done err requeue rest => (err, requeue) :: resolves_now rest
  | h_return _ | h_throw _ _ => []
  end.

(** What it throws, if it does. *)
Fixpoint thrown (r : handler_run) : option value :=
  match r with
  | h_done _ _ rest => thrown rest
  | h_return _ => None
  | h_throw e _ => Some e
  end.

(** The handler calls [done(err, requeue)] once, in the turn of the delivery or
    in a later one, and does not throw. *)
Definition resolves_once (r : handler_run) (err requeue : value) : Prop :=
  r = h_done err requeue (h_return []) ∨ r = h_return [(err, requeue)].

(** The world after a turn that called the transport and logged. *)
Definition after (w : world) (calls : list tcall) (logged : list value) : world :=
  {| w_heap := w_heap w; w_calls := (w_calls w ++ calls)%list;
     w_console := (w_console w ++ logged)%list |}.

(** *** The handshake *)

#[global] Instance error_kind_eq_dec : EqDecision error_kind.
Proof. solve_decision. Defined.
#[global] Instance value_eq_dec : EqDecision value.
Proof. solve_decision. Defined.
#[global] Instance delivery_eq_dec : EqDecision delivery.
Proof. solve_decision. Defined.
#[global] Instance tcall_eq_dec : EqDecision tcall.
Proof. solve_decision. Defined.

(** The handle an answer carries; no answer, no handle. *)
Definition answer_handle (answer : option reply) : handle :=
  match answer with Some r => r_result r | None => O end.

(** A step succeeds when it completes and its callback gets no error. *)
Definition succeeds (env : environment) (c : tcall) : bool :=
  match env c with Some r => negb (truthy (r_err r)) | None => false end.

(** The setup tasks a configuration asks for, publish side first. *)
Definition setup_tasks (h : heap) (config : value) (ch : handle) : list tcall :=
  let queues := field h config "queues" in
  let consume := field h queues "consume" in
  ((if wants_publish h (field h queues "publish")
    then [t_setupForPublish ch config] else []) ++
   (if truthy consume && truthy (field h consume "name")
    then [t_setupForConsume ch config] else []))%list.

(** The steps of [connect], in the order the spec gives them: connect, create
    the confirm channel, declare the topic exchange, set up the topology. *)
Definition plan (h : heap) (config : value) (env : environment) : list tcall :=
  let open := t_connect (field h config "url") in
  let create := t_createConfirmChannel (answer_handle (env open)) in
  let ch := answer_handle (env create) in
  [open; create; t_assertExchange ch (field h config "exchange") "topic"]
  ++ setup_tasks h config ch.

(** The spec's sequence: each step gated on the success of the one before;
    the first failure goes to the caller and ends it; success is reported when
    no step is left. *)
Fixpoint gated (env : environment) (steps : list tcall) : list event :=
  match steps with
  | [] => [CalledBack VNull]
  | c :: rest =>
      Issued c ::
      match env c with
      | None => []
      | Some r =>
          Completed c r ::
          if truthy (r_err r) then [CalledBack (r_err r)] else gated env rest
      end
  end.

(** Steps made and completed, one after the other. *)
Definition completed (env : environment) (steps : list tcall) : list event :=
  flat_map (fun c => match env c with
                     | Some r => [Issued c; Completed c r]
                     | None => [Issued c]
                     end) steps.

(** [x] comes before [y] in a trace. *)
Definition precedes (x y : event) (tr : list event) : Prop :=
  ∃ before between after, tr = (before ++ x :: between ++ y :: after)%list.

(** The calls [a] and [b] are, at some moment, both made and both still to
    complete. *)
Fixpoint overlap_from (a b : tcall) (a_open b_open : bool) (tr : list event)
  : bool :=
  match tr with
  | [] => false
  | Issued c :: rest =>
      let a_open := a_open || bool_decide (c = a) in
      let b_open := b_open || bool_decide (c = b) in
      (a_open && b_open) || overlap_from a b a_open b_open rest
  | Completed c _ :: rest =>
      overlap_from a b (a_open && negb (bool_decide (c = a)))
        (b_open && negb (bool_decide (c = b))) rest
  | _ :: rest => overlap_from a b a_open b_open rest
  end.

Definition overlap (a b : tcall) (tr : list event) : bool :=
  overlap_from a b false false tr.

Definition issued (c : tcall) (tr : list event) : bool :=
  existsb (fun e => match e with
                    | Issued c' => bool_decide (c' = c)
                    | _ => false
                    end) tr.

(** A setup task as [async.series] sees it. *)
Definition task_of (c : tcall) : task :=
  fun callback => Call c (fun r => callback (r_err r)).

(** *** Further vocabulary *)

(** What the guard of the constructor lets through. *)
Definition accepted (h : heap) (config : value) : bool :=
  truthy (field h config "url") && truthy (field h config "exchange").

(** The prefetch count the constructor leaves in the configuration. *)
Definition prefetch_of (h : heap) (config : value) : value :=
  js_or (field h config "prefetch") (VNum 10).


(** The consume target of a configuration. *)
Definition consume_target (h : heap) (config : value) : value :=
  field h (field h config "queues") "consume".


(** The wrapper as [connect] leaves it. *)
Definition connected_by (h : heap) (config : value) (env : environment)
  : closure :=
  {| config := config;
     channel := (run env None (connect h config told)).2 |}.

End Vocabulary.
Export Vocabulary.

(** ** A configuration, a wrapper and some deliveries to try things on *)

Module Examples.

(** [{ url: 'amqp://localhost', exchange: 'ex',
       queues: { publish: [{ name: 'orders', routingKey: 'orders.created' }],
                 consume: { name: 'q1' } } }] at location 1, a message [m]
    with [m.self === m] at location 6 and the message [{ id: 1 }] at
    location 8. *)
Definition heap0 : heap :=
  {[ 1%nat := Obj [("url", VStr "amqp://localhost"); ("exchange", VStr "ex");
                   ("queues", VRef 2%nat)];
     2%nat := Obj [("publish", VRef 3%nat); ("consume", VRef 5%nat)];
     3%nat := Arr [VRef 4%nat];
     4%nat := Obj [("name", VStr "orders");
                   ("routingKey", VStr "orders.created")];
     5%nat := Obj [("name", VStr "q1")];
     6%nat := Obj [("id", VNum 1); ("self", VRef 6%nat)];
     8%nat := Obj [("id", VNum 1)] ]}.

Definition config0 : value := VRef 1%nat.

(** The same without [queues]. *)
Definition heap_no_queues : heap :=
  {[ 1%nat := Obj [("url", VStr "amqp://localhost"); ("exchange", VStr "ex")] ]}.

(** The same without [url]. *)
Definition heap_no_url : heap :=
  {[ 1%nat := Obj [("exchange", VStr "ex")] ]}.

Definition world_of (h : heap) : world :=
  {| w_heap := h; w_calls := []; w_console := [] |}.

Definition world0 : world := world_of heap0.

(** The wrapper once [connect] has stored channel 7. *)
Definition connected0 : closure := {| config := config0; channel := Some 7%nat |}.

Definition text_a1 : string := "{" ++ dquote ++ "a" ++ dquote ++ ":1}".

Definition text_id1 : string := "{" ++ dquote ++ "id" ++ dquote ++ ":1}".

Definition delivery_a1 : delivery := {| content := text_a1; deliveryTag := 1%nat |}.
Definition delivery_bad : delivery := {| content := "not-json"; deliveryTag := 2%nat |}.

(** What [JSON.parse] makes of [text_a1]. *)
Definition payload_a1 : json := JObj [("a", JNum 1 0)].

Definition failure : value := VError Error "handler failed".

(** Handlers: [done(null)]; [done(err)]; [done(err, true)]; [done(null)] twice;
    [done(null)] and then a throw; nothing at all; [throw null]; a throw. *)
Definition resolves_null (_ : json) : handler_run :=
  h_done VNull VUndefined (h_return []).
Definition resolves_error (_ : json) : handler_run :=
  h_done failure VUndefined (h_return []).
Definition resolves_error_requeue (_ : json) : handler_run :=
  h_done failure (VBool true) (h_return []).
Definition resolves_twice (_ : json) : handler_run :=
  h_done VNull VUndefined (h_done VNull VUndefined (h_return [])).
Definition resolves_then_throws (_ : json) : handler_run :=
  h_done VNull VUndefined (h_throw failure []).
Definition never_resolves (_ : json) : handler_run := h_return [].
Definition throws_null (_ : json) : handler_run := h_throw VNull [].
Definition throws_error (_ : json) : handler_run := h_throw failure [].

Definition refused : value := VError Error "setup refused".

(** A transport on which everything works: connection 3, channel 7. *)
Definition env_ok : environment :=
  fun c => Some {| r_err := VNull;
                   r_result := match c with
                               | t_connect _ => 3%nat
                               | t_createConfirmChannel _ => 7%nat
                               | _ => O
                               end |}.

(** The same, but the publish side of the setup fails. *)
Definition env_publish_setup_fails : environment :=
  fun c => match c with
           | t_setupForPublish _ _ => Some {| r_err := refused; r_result := O |}
           | _ => env_ok c
           end.

(** [{ url, exchange, prefetch: 0, queues: {} }] at location 1. *)
Definition heap_bare : heap :=
  {[ 1%nat := Obj [("url", VStr "amqp://localhost"); ("exchange", VStr "ex");
                   ("prefetch", VNum 0); ("queues", VRef 2%nat)];
     2%nat := Obj [] ]}.


Definition heap_keyed : heap :=
  {[ 1%nat := Obj [("url", VStr "amqp://localhost"); ("exchange", VStr "ex");
                   ("queues", VRef 2%nat)];
     2%nat := Obj [("publish", VRef 7%nat); ("consume", VRef 5%nat)];
     7%nat := Obj [("orders", VRef 4%nat)];
     4%nat := Obj [("name", VStr "orders");
                   ("routingKey", VStr "orders.created")];
     5%nat := Obj [("name", VStr "q1")] ]}.

(** The wrapper before [connect]. *)
Definition fresh0 : closure := {| config := config0; channel := None |}.

(** A transport that declares no exchange. *)
Definition env_declare_fails : environment :=
  fun c => match c with
           | t_assertExchange _ _ _ => Some {| r_err := refused; r_result := O |}
           | _ => env_ok c
           end.

(** A transport that cannot be reached. *)
Definition env_unreachable : environment :=
  fun c => match c with
           | t_connect _ => Some {| r_err := refused; r_result := O |}
           | _ => env_ok c
           end.

(** Handlers: [done(0, true)]; [done(err, null)]. *)
Definition resolves_zero (_ : json) : handler_run :=
  h_done (VNum 0) (VBool true) (h_return []).
Definition resolves_error_null (_ : json) : handler_run :=
  h_done failure VNull (h_return []).

End Examples.
Export Examples.

(** ** The serializer always returns *)

Local Open Scope list_scope.

Section serializer_facts.

Implicit Types (h : heap) (stack : list loc) (keys : list string) (v : value).

Lemma index_of_None l stack : index_of l stack = None → l ∉ stack.
Proof.
  induction stack as [|x stack IH]; simpl; [intros _; apply not_elem_of_nil|].
  destruct (Nat.eqb_spec l x) as [->|Hne]; [discriminate|].
  destruct (index_of l stack); [discriminate|].
  intros _ [->|Hin]%elem_of_cons; [done|]. by apply IH.
Qed.

Lemma index_of_Some l stack : l ∈ stack → is_Some (index_of l stack).
Proof.
  induction stack as [|x stack IH]; [by intros ?%elem_of_nil|].
  intros Hin. simpl. destruct (Nat.eqb_spec l x) as [->|Hne]; [by eexists|].
  apply elem_of_cons in Hin as [->|Hin]; [done|].
  destruct (IH Hin) as [i ->]. by eexists.
Qed.

(** Objects that enclose one another are pairwise distinct, so there are no
    more of them than the heap holds. *)
Lemma stack_bounded h stack :
  NoDup stack → (∀ l, l ∈ stack → is_Some (h !! l)) → (length stack ≤ size h)%nat.
Proof.
  intros Hnd Hin. rewrite <- size_dom. unfold size, set_size. simpl.
  apply submseteq_length, NoDup_submseteq; [done|].
  intros l Hl. apply elem_of_elements, elem_of_dom. by apply Hin.
Qed.

(** A value that is on the stack is written as a string: the cycle is cut. *)
Lemma cycleReplacer_cuts stack keys l :
  l ∈ stack → ∃ text, cycleReplacer stack keys (VRef l) = VStr text.
Proof.
  intros [i Hi]%index_of_Some. unfold cycleReplacer. rewrite Hi.
  destruct i; by eexists.
Qed.

Lemma cycleReplacer_keeps stack keys v l :
  cycleReplacer stack keys v = VRef l → v = VRef l ∧ l ∉ stack.
Proof.
  destruct v; simpl; try discriminate.
  destruct (index_of l0 stack) as [[|i]|] eqn:Hi; try discriminate.
  intros [= ->]. split; [done|]. by apply index_of_None.
Qed.

Lemma stringify_returns fuel : ∀ h stack keys v,
  NoDup stack → (∀ l, l ∈ stack → is_Some (h !! l)) →
  (size h < fuel + length stack)%nat →
  is_Some (stringify fuel h stack keys v).
Proof.
  induction fuel as [|fuel IH]; intros h stack keys v Hnd Hin Hfuel.
  { pose proof (stack_bounded h stack Hnd Hin). lia. }
  simpl. destruct (cycleReplacer stack keys v) as [| |b|n|s|k msg|l] eqn:Hrep;
    try by eexists.
  apply cycleReplacer_keeps in Hrep as [-> Hfresh].
  destruct (h !! l) as [[props|items]|] eqn:Hl; [| |by eexists].
  - assert (Hnd' : NoDup (stack ++ [l])).
    { apply NoDup_app. split_and!; [done| |apply NoDup_singleton].
      intros x Hx ->%list_elem_of_singleton. done. }
    assert (Hin' : ∀ x, x ∈ stack ++ [l] → is_Some (h !! x)).
    { intros x [Hx| ->%list_elem_of_singleton]%elem_of_app; [by apply Hin|].
      by rewrite Hl. }
    assert (Hparts : is_Some (mapM (fun kv : string * value =>
              (fun text => member text kv.1) <$>
                stringify fuel h (stack ++ [l]) (keys ++ [kv.1]) kv.2) props)).
    { apply mapM_is_Some, Forall_forall. intros [k x] _. simpl.
      destruct (IH h (stack ++ [l]) (keys ++ [k]) x Hnd' Hin') as [r ->];
        [rewrite length_app; simpl; lia|]. by eexists. }
    destruct Hparts as [parts ->]. by eexists.
  - assert (Hnd' : NoDup (stack ++ [l])).
    { apply NoDup_app. split_and!; [done| |apply NoDup_singleton].
      intros x Hx ->%list_elem_of_singleton. done. }
    assert (Hin' : ∀ x, x ∈ stack ++ [l] → is_Some (h !! x)).
    { intros x [Hx| ->%list_elem_of_singleton]%elem_of_app; [by apply Hin|].
      by rewrite Hl. }
    assert (Hparts : is_Some (mapM (fun iv : nat * value =>
              default "null" <$>
                stringify fuel h (stack ++ [l]) (keys ++ [pretty iv.1]) iv.2)
              (imap pair items))).
    { apply mapM_is_Some, Forall_forall. intros [i x] _. simpl.
      destruct (IH h (stack ++ [l]) (keys ++ [pretty i]) x Hnd' Hin') as [r ->];
        [rewrite length_app; simpl; lia|]. by eexists. }
    destruct Hparts as [parts ->]. by eexists.
Qed.

(** [stringifysafe] never throws, and an object, an array, an error or [null]
    comes out as a string. *)
Lemma stringifysafe_string h v :
  typeof v = "object" → ∃ s, stringifysafe h v = Normal (VStr s).
Proof.
  intros Hobj. unfold stringifysafe.
  destruct (stringify_returns (S (size h)) h [] [] v) as [r Hr];
    [apply NoDup_nil_2|by intros l ?%elem_of_nil|simpl; lia|].
  rewrite Hr. destruct r as [s|]; [by eexists|].
  exfalso. simpl in Hr. destruct v; simpl in *; try discriminate.
  destruct (h !! l) as [[props|items]|] eqn:Hl; simpl in Hr.
  - destruct (mapM _ props); discriminate.
  - destruct (mapM _ (imap pair items)); discriminate.
  - discriminate.
Qed.

End serializer_facts.

(** ** Construction *)

Section construction_facts.

Implicit Types (h : heap) (w : world) (config : value).

Lemma get_field h o k : truthy o = true → get h o k = Normal (field h o k).
Proof.
  unfold field. destruct o; simpl; try discriminate; intros _; try done.
  by destruct (h !! l) as [[?|?]|].
Qed.

Lemma get_field_not_nullish h o k : nullish o = false → get h o k = Normal (field h o k).
Proof.
  unfold field. destruct o; simpl; try discriminate; intros _; try done.
  by destruct (h !! l) as [[?|?]|].
Qed.

Lemma field_truthy h o k : truthy (field h o k) = true → truthy o = true.
Proof. unfold field. by destruct o. Qed.

(** The guard of the constructor, as a function of the world it reads. *)
Lemma invalid_config_eq config w :
  invalid_config config w =
  (Normal (negb (truthy config && truthy (field (w_heap w) config "url")
                 && truthy (field (w_heap w) config "exchange"))), w).
Proof.
  unfold invalid_config. destruct (truthy config) eqn:Hc; simpl; [|done].
  unfold bind, lift, ret. rewrite (get_field _ _ _ Hc).
  destruct (truthy (field (w_heap w) config "url")); simpl; [|done].
  by rewrite (get_field _ _ _ Hc).
Qed.

(** C7. A configuration that is missing altogether, or that has no [url] or
    no [exchange], is refused by the constructor with the error
    [amqp-wrapper: Invalid config]; the world is left as it was, so no call
    has been made on the transport. *)
Theorem construction_rejects_missing_fields config w :
  config = VUndefined ∨
  field (w_heap w) config "url" = VUndefined ∨
  field (w_heap w) config "exchange" = VUndefined →
  amqp_wrapper config w = (Thrown (VError Error "amqp-wrapper: Invalid config"), w).
Proof.
  intros Hmissing. unfold amqp_wrapper, bind. rewrite invalid_config_eq.
  destruct Hmissing as [-> | [-> | ->]]; simpl; [done| |].
  - by rewrite andb_false_r.
  - by rewrite andb_false_r.
Qed.

End construction_facts.

(** ** The publish paths *)

Section publish_facts.

Implicit Types (h : heap) (w : world) (cl : closure) (message : value).

Lemma valid_config_url h config :
  valid_config h config = true → truthy config = true.
Proof.
  unfold valid_config. intros [[Hurl _]%andb_true_iff _]%andb_true_iff.
  by apply field_truthy in Hurl.
Qed.

Lemma valid_config_queues h config :
  valid_config h config = true →
  nullish (field h config "queues") = false.
Proof.
  unfold valid_config. intros [_ Hq]%andb_true_iff. by apply negb_true_iff.
Qed.

Lemma has_name_not_nullish h name t : has_name h name t = true → nullish t = false.
Proof. unfold has_name. by destruct t. Qed.

Lemma find_no_match {A} (f : A → bool) (l : list A) :
  Forall (fun x => f x = false) l → List.find f l = None.
Proof. induction 1 as [|x l Hx _ IH]; simpl; [done|]. by rewrite Hx. Qed.

(** What [serialize] leaves in [message]. *)
Lemma serialize_object message w :
  typeof message = "object" →
  ∃ s, stringifysafe (w_heap w) message = Normal (VStr s) ∧
       serialize message w = (Normal (VStr s), w).
Proof.
  intros Hobj. destruct (stringifysafe_string (w_heap w) message Hobj) as [s Hs].
  exists s. split; [done|]. unfold serialize, lift. rewrite Hobj. simpl.
  by rewrite Hs.
Qed.

Lemma serialize_returns message w : ∃ m, serialize message w = (Normal m, w).
Proof.
  destruct (String.eqb (typeof message) "object") eqn:Hobj.
  - apply String.eqb_eq in Hobj.
    destruct (serialize_object message w Hobj) as (s & _ & ->). by eexists.
  - unfold serialize. rewrite Hobj. by eexists.
Qed.

(** The amended C1. On a connected wrapper with a valid configuration, a call
    of [publishToQueue] that names none of the configured publish targets
    throws the [TypeError] of reading [routingKey] of [undefined]; the world
    is left as it was, so nothing has been handed to the transport. *)
Theorem publishToQueue_unknown_target cl w name message ch :
  valid_config (w_heap w) (config cl) = true →
  channel cl = Some ch →
  Forall (fun target => has_name (w_heap w) name target = false)
    (publish_targets (w_heap w) (config cl)) →
  publishToQueue cl name message w
  = (Thrown (cannot_read "routingKey" VUndefined), w).
Proof.
  intros Hvalid Hch Hnone. unfold publishToQueue, bind.
  destruct (serialize_returns message w) as [m ->].
  unfold lift at 1. rewrite (get_field _ _ _ (valid_config_url _ _ Hvalid)).
  unfold lift at 1.
  rewrite (get_field_not_nullish _ _ _ (valid_config_queues _ _ Hvalid)).
  unfold lift at 1. unfold lodash_find.
  unfold publish_targets in Hnone. rewrite (find_no_match _ _ Hnone). simpl.
  unfold channel_method. rewrite Hch. unfold ret, lift.
  by rewrite (get_field _ _ _ (valid_config_url _ _ Hvalid)).
Qed.


End publish_facts.

(** ** The dispatcher *)

Section dispatcher_facts.

Variable parsed : Type.
Variable JSON_parse : string → option parsed.
Variable handleMessage : parsed → handler_run.
Variable cl : closure.
Variable ch : handle.
Hypothesis connected : channel cl = Some ch.

Implicit Types (w : world) (message : delivery) (r : handler_run).

Lemma after_nil w : after w [] [] = w.
Proof. destruct w. unfold after. simpl. by rewrite !app_nil_r. Qed.

Lemma after_after w c1 l1 c2 l2 :
  after (after w c1 l1) c2 l2 = after w (c1 ++ c2) (l1 ++ l2).
Proof. unfold after. simpl. by rewrite !app_assoc. Qed.

Lemma done_connected message err requeue w :
  done cl message err requeue w
  = (Normal tt, after w [resolution ch message (err, requeue)] []).
Proof.
  unfold done, resolution, channel_method, bind. rewrite connected. simpl.
  destruct (truthy err); unfold ret, call, after; simpl; by rewrite app_nil_r.
Qed.

Lemma invoke_connected message r w :
  invoke cl message r w
  = (match thrown r with Some e => Thrown e | None => Normal tt end,
     after w (map (resolution ch message) (resolves_now r)) []).
Proof.
  revert w. induction r as [err requeue rest IH|l|e l]; intros w; simpl.
  - unfold bind. rewrite done_connected, IH, after_after. done.
  - by rewrite after_nil.
  - by rewrite after_nil.
Qed.

Lemma turns_connected message (l : list (value * value)) w :
  turns (map (fun er => done cl message er.1 er.2) l) w
  = (Normal tt, after w (map (resolution ch message) l) []).
Proof.
  revert w. induction l as [|[err requeue] l IH]; intros w; simpl.
  - by rewrite after_nil.
  - rewrite done_connected. simpl. by rewrite IH, after_after.
Qed.

(** The callback on a payload that parses. *)
Lemma callback_parsed message p w :
  JSON_parse (content message) = Some p →
  callback parsed JSON_parse handleMessage cl message w
  = (Normal tt,
     after w
       (map (resolution ch message) (resolves_now (handleMessage p)) ++
        match thrown (handleMessage p) with
        | Some e => [resolution ch message (e, VBool false)]
        | None => []
        end)
       (match thrown (handleMessage p) with Some e => [e] | None => [] end)).
Proof.
  intros Hp. unfold callback, try_catch, bind, parse, ret. rewrite Hp.
  rewrite invoke_connected. destruct (thrown (handleMessage p)) as [e|].
  - unfold console_log. rewrite done_connected. f_equal.
    unfold after. simpl. by rewrite !app_nil_r, !app_assoc.
  - by rewrite !app_nil_r.
Qed.

(** The callback on a payload that does not. *)
Lemma callback_malformed message w :
  JSON_parse (content message) = None →
  callback parsed JSON_parse handleMessage cl message w
  = (Normal tt,
     after w [t_nack ch message false (VBool false)]
       [VError SyntaxError "Unexpected token in JSON"]).
Proof.
  intros Hp. unfold callback, try_catch, bind, parse, ret, throw. rewrite Hp.
  unfold console_log. rewrite done_connected. f_equal.
  unfold after, resolution. simpl. by rewrite app_nil_r.
Qed.

(** One delivery whose payload parses, to the end. *)
Lemma deliver_parsed message p w :
  JSON_parse (content message) = Some p →
  deliver parsed JSON_parse handleMessage cl message w
  = (Normal tt,
     after w
       (map (resolution ch message) (resolves_now (handleMessage p)) ++
        match thrown (handleMessage p) with
        | Some e => [resolution ch message (e, VBool false)]
        | None => []
        end ++
        map (resolution ch message) (later (handleMessage p)))
       (match thrown (handleMessage p) with Some e => [e] | None => [] end)).
Proof.
  intros Hp. unfold deliver. rewrite Hp. simpl.
  rewrite (callback_parsed _ _ _ Hp). simpl.
  rewrite turns_connected, after_after. by rewrite app_nil_r, <- app_assoc.
Qed.

End dispatcher_facts.

Section delivery_contract.

Variable parsed : Type.
Variable JSON_parse : string → option parsed.
Variable cl : closure.
Variable ch : handle.

Implicit Types (w : world) (message : delivery) (handleMessage : parsed → handler_run).

(** The amended C2. For one delivery the dispatcher makes one call, an ack or
    a nack of that delivery, for every call of [done] by the handler, one more
    when the handler throws in the turn of the delivery, and exactly one when
    the payload does not parse; nothing else, and nothing that would hold a
    second call back or make up for a missing one. *)
Theorem resolutions_follow_the_handler handleMessage message w :
  channel cl = Some ch →
  ∃ extra,
    w_calls (deliver parsed JSON_parse handleMessage cl message w).2
    = w_calls w ++ extra ∧
    Forall (fun c => c = t_ack ch message ∨
                     ∃ requeue, c = t_nack ch message false requeue) extra ∧
    length extra =
      match JSON_parse (content message) with
      | None => 1%nat
      | Some p =>
          (length (resolves_now (handleMessage p))
           + match thrown (handleMessage p) with Some _ => 1 | None => 0 end
           + length (later (handleMessage p)))%nat
      end.
Proof.
  intros connected.
  assert (Hres : ∀ er, resolution ch message er = t_ack ch message ∨
                       ∃ requeue, resolution ch message er
                                  = t_nack ch message false requeue).
  { intros er. unfold resolution. destruct (truthy er.1); eauto. }
  destruct (JSON_parse (content message)) as [p|] eqn:Hp.
  - rewrite (deliver_parsed _ _ _ _ _ connected _ _ _ Hp). simpl.
    eexists. split; [done|]. split.
    + rewrite !Forall_app, !Forall_map. split_and!.
      * apply Forall_forall. intros er _. apply Hres.
      * destruct (thrown (handleMessage p));
          [apply Forall_singleton, Hres|apply Forall_nil_2].
      * apply Forall_forall. intros er _. apply Hres.
    + rewrite !length_app, !length_map.
      destruct (thrown (handleMessage p)); simpl; lia.
  - unfold deliver. rewrite Hp. simpl.
    rewrite (callback_malformed _ _ _ _ _ connected _ _ Hp). simpl.
    eexists. split; [done|]. split; [|done].
    apply Forall_singleton. eauto.
Qed.

(** C4. When the payload parses and the handler calls [done] once, in the
    turn of the delivery or later, and does not throw: [done(null)] acks the
    delivery; [done(err)] with an error and no second argument nacks it with
    requeue [false]; [done(err, true)] nacks it with requeue [true].  Each is
    the only call made. *)
Theorem resolution_decides_ack_or_nack handleMessage message p err requeue w :
  channel cl = Some ch →
  JSON_parse (content message) = Some p →
  resolves_once (handleMessage p) err requeue →
  let calls := w_calls (deliver parsed JSON_parse handleMessage cl message w).2 in
  (err = VNull → calls = w_calls w ++ [t_ack ch message]) ∧
  (truthy err = true → requeue = VUndefined →
   calls = w_calls w ++ [t_nack ch message false (VBool false)]) ∧
  (truthy err = true → requeue = VBool true →
   calls = w_calls w ++ [t_nack ch message false (VBool true)]).
Proof.
  intros connected Hp Honce calls. subst calls.
  rewrite (deliver_parsed _ _ _ _ _ connected _ _ _ Hp). simpl.
  assert (Hcalls :
    map (resolution ch message) (resolves_now (handleMessage p)) ++
    match thrown (handleMessage p) with
    | Some e => [resolution ch message (e, VBool false)]
    | None => []
    end ++ map (resolution ch message) (later (handleMessage p))
    = [resolution ch message (err, requeue)]).
  { destruct Honce as [-> | ->]; done. }
  rewrite Hcalls. unfold resolution. simpl. split_and!.
  - by intros ->.
  - by intros -> ->.
  - by intros -> ->.
Qed.

(** C5. A delivery whose payload is not JSON is nacked with requeue [false],
    in one call, and the error is logged.  This holds whatever the handler
    is: it is not run. *)
Theorem malformed_payload_is_nacked handleMessage message w :
  channel cl = Some ch →
  JSON_parse (content message) = None →
  deliver parsed JSON_parse handleMessage cl message w
  = (Normal tt,
     after w [t_nack ch message false (VBool false)]
       [VError SyntaxError "Unexpected token in JSON"]).
Proof.
  intros connected Hp. unfold deliver. rewrite Hp. simpl.
  by rewrite (callback_malformed _ _ _ _ _ connected _ _ Hp).
Qed.

(** A handler that throws an error, or anything else that counts as true,
    before any call of [done] has its delivery nacked with requeue [false]. *)
Lemma throwing_handler_is_nacked handleMessage message p e l w :
  channel cl = Some ch →
  JSON_parse (content message) = Some p →
  handleMessage p = h_throw e l →
  truthy e = true →
  callback parsed JSON_parse handleMessage cl message w
  = (Normal tt, after w [t_nack ch message false (VBool false)] [e]).
Proof.
  intros connected Hp Hthrow He.
  rewrite (callback_parsed _ _ _ _ _ connected _ _ _ Hp), Hthrow. simpl.
  unfold resolution. simpl. by rewrite He.
Qed.

End delivery_contract.

(** ** The handshake *)

Section gated_facts.

Variable env : environment.

Implicit Types (steps : list tcall) (c : tcall) (chan : option handle).

(** [async.series] over setup tasks, told to the caller, is the gated
    sequence of the spec. *)
Lemma async_series_gated steps chan :
  run env chan (async_series (map task_of steps) told) = (gated env steps, chan).
Proof.
  induction steps as [|c steps IH]; simpl; [done|].
  destruct (env c) as [r|]; [|done].
  destruct (truthy (r_err r)); simpl; [done|]. by rewrite IH.
Qed.

Lemma gated_all_succeed steps :
  Forall (fun c => succeeds env c = true) steps →
  gated env steps = completed env steps ++ [CalledBack VNull].
Proof.
  induction 1 as [|c steps Hc _ IH]; simpl; [done|].
  unfold succeeds in Hc. destruct (env c) as [r|]; [|discriminate].
  apply negb_true_iff in Hc. rewrite Hc. simpl. by rewrite IH.
Qed.

Lemma gated_first_failure before c r after :
  Forall (fun c => succeeds env c = true) before →
  env c = Some r → truthy (r_err r) = true →
  gated env (before ++ c :: after)
  = completed env before ++ [Issued c; Completed c r; CalledBack (r_err r)].
Proof.
  intros Hbefore Hc Herr.
  induction Hbefore as [|c' before Hc' _ IH]; simpl.
  - by rewrite Hc, Herr.
  - unfold succeeds in Hc'. destruct (env c') as [r'|]; [|discriminate].
    apply negb_true_iff in Hc'. rewrite Hc'. simpl. by rewrite IH.
Qed.

Lemma gated_success_iff steps :
  (∃ v, In (CalledBack v) (gated env steps) ∧ truthy v = false)
  ↔ Forall (fun c => succeeds env c = true) steps.
Proof.
  induction steps as [|c steps IH]; simpl.
  - split; [constructor|]. intros _. exists VNull. auto.
  - rewrite Forall_cons, <- IH. unfold succeeds.
    destruct (env c) as [r|]; simpl.
    + destruct (truthy (r_err r)) eqn:Herr; simpl.
      * split; [|intros [[=] _]].
        intros (v & [[=]|[[=]|[[= <-]|[]]]] & Hv). congruence.
      * split.
        -- intros (v & [[=]|[[=]|Hin]] & Hv). eauto.
        -- intros [_ (v & Hin & Hv)]. eauto.
    + split; [|intros [[=] _]]. intros (v & [[=]|[]] & _).
Qed.

(** In a gated sequence no two calls are outstanding together. *)
Lemma gated_one_at_a_time a b steps :
  a ≠ b → overlap a b (gated env steps) = false.
Proof.
  intros Hab. unfold overlap. induction steps as [|c steps IH]; simpl; [done|].
  assert (Hone : bool_decide (c = a) && bool_decide (c = b) = false).
  { destruct (bool_decide_reflect (c = a)) as [->|]; [|done].
    simpl. by apply bool_decide_eq_false. }
  rewrite Hone. simpl. destruct (env c) as [r|]; simpl; [|done].
  rewrite !andb_negb_r. by destruct (truthy (r_err r)).
Qed.

End gated_facts.

Section connect_facts.

Variable h : heap.
Variable config : value.
Variable env : environment.

Lemma assertQueues_series ch r :
  valid_config h config = true → truthy (r_err r) = false →
  assertQueues h config told ch r
  = async_series (map task_of (setup_tasks h config ch)) told.
Proof.
  intros Hvalid Hr. unfold assertQueues, setup_tasks. rewrite Hr.
  rewrite (get_field _ _ _ (valid_config_url _ _ Hvalid)).
  pose proof (valid_config_queues _ _ Hvalid) as Hq.
  rewrite !(get_field_not_nullish _ _ _ Hq).
  destruct (truthy (field h (field h config "queues") "consume")) eqn:Hconsume.
  - rewrite (get_field _ _ _ Hconsume). simpl.
    destruct (wants_publish h _), (truthy (field h _ "name")); done.
  - rewrite Hconsume. simpl. destruct (wants_publish h _); done.
Qed.

(** [connect] is the gated sequence over its plan. *)
Lemma connect_gated :
  valid_config h config = true →
  (run env None (connect h config told)).1 = gated env (plan h config env).
Proof.
  intros Hvalid. pose proof (valid_config_url _ _ Hvalid) as Hconfig.
  unfold connect, plan. rewrite (get_field _ _ _ Hconfig). simpl.
  destruct (env (t_connect _)) as [r1|]; [|done]. simpl.
  unfold createChannel. destruct (truthy (r_err r1)); [done|]. simpl.
  destruct (env (t_createConfirmChannel _)) as [r2|]; [|done]. simpl.
  unfold assertExchange. destruct (truthy (r_err r2)); [done|]. simpl.
  rewrite (get_field _ _ _ Hconfig). simpl.
  destruct (env (t_assertExchange _ _ _)) as [r3|]; [|done]. simpl.
  destruct (truthy (r_err r3)) eqn:Hr3.
  - unfold assertQueues. by rewrite Hr3.
  - rewrite (assertQueues_series _ _ Hvalid Hr3).
    by rewrite async_series_gated.
Qed.

(** Once the channel has been created, [var channel] holds it: this is the
    connected wrapper the publish and consume paths start from. *)
Lemma connect_stores_channel :
  valid_config h config = true →
  let open := t_connect (field h config "url") in
  let create := t_createConfirmChannel (answer_handle (env open)) in
  succeeds env open = true → succeeds env create = true →
  (run env None (connect h config told)).2 = Some (answer_handle (env create)).
Proof.
  intros Hvalid open create Hopen Hcreate. subst create open.
  pose proof (valid_config_url _ _ Hvalid) as Hconfig.
  unfold succeeds in *. unfold connect. rewrite (get_field _ _ _ Hconfig). simpl.
  destruct (env (t_connect _)) as [r1|]; [|discriminate].
  apply negb_true_iff in Hopen. simpl in *.
  unfold createChannel. rewrite Hopen. simpl.
  destruct (env (t_createConfirmChannel _)) as [r2|]; [|discriminate].
  apply negb_true_iff in Hcreate. simpl.
  unfold assertExchange. rewrite Hcreate. simpl.
  rewrite (get_field _ _ _ Hconfig). simpl.
  destruct (env (t_assertExchange _ _ _)) as [r3|]; [|done]. simpl.
  destruct (truthy (r_err r3)) eqn:Hr3.
  - unfold assertQueues. by rewrite Hr3.
  - rewrite (assertQueues_series _ _ Hvalid Hr3).
    by rewrite async_series_gated.
Qed.

(** C3. For a valid configuration [connect] is the gated sequence over its
    plan: open the connection, create the confirm channel, declare the topic
    exchange, then the setup tasks, each made once the one before has
    succeeded.  The caller is told of success exactly when every step
    succeeds; at the first step that fails the caller gets that step's error
    and no later step is made; and success is told only after every step,
    the setup tasks included, has completed. *)
Theorem connect_is_gated_and_fails_fast :
  valid_config h config = true →
  let steps := plan h config env in
  let trace := (run env None (connect h config told)).1 in
  trace = gated env steps ∧
  ((∃ v, In (CalledBack v) trace ∧ truthy v = false)
   ↔ Forall (fun c => succeeds env c = true) steps) ∧
  (∀ before c r after,
     steps = before ++ c :: after →
     Forall (fun c => succeeds env c = true) before →
     env c = Some r → truthy (r_err r) = true →
     trace = completed env before
             ++ [Issued c; Completed c r; CalledBack (r_err r)]) ∧
  (Forall (fun c => succeeds env c = true) steps →
   trace = completed env steps ++ [CalledBack VNull]).
Proof.
  intros Hvalid steps trace.
  assert (Htrace : trace = gated env steps) by apply (connect_gated Hvalid).
  split_and!; [done| | |].
  - rewrite Htrace. apply gated_success_iff.
  - intros before c r after Hsteps Hbefore Hc Herr.
    rewrite Htrace, Hsteps. by apply gated_first_failure.
  - intros Hall. rewrite Htrace. by apply gated_all_succeed.
Qed.

End connect_facts.

Section series_facts.

Variable env : environment.

Implicit Types (steps before after : list tcall) (c : tcall).

Lemma gated_after_successes before after :
  Forall (fun c => succeeds env c = true) before →
  gated env (before ++ after) = completed env before ++ gated env after.
Proof.
  induction 1 as [|c before Hc _ IH]; simpl; [done|].
  unfold succeeds in Hc. destruct (env c) as [r|]; [|discriminate].
  apply negb_true_iff in Hc. rewrite Hc. simpl. by rewrite IH.
Qed.

(** A step is made only if every step before it has succeeded. *)
Lemma gated_issued_only_after before c after :
  c ∉ before →
  issued c (gated env (before ++ c :: after)) = true →
  Forall (fun c => succeeds env c = true) before.
Proof.
  induction before as [|x before IH]; intros Hnotin Hissued; [constructor|].
  apply not_elem_of_cons in Hnotin as [Hne Hnotin].
  simpl in Hissued. rewrite (bool_decide_eq_false_2 _ (not_eq_sym Hne)) in Hissued.
  simpl in Hissued. unfold succeeds. destruct (env x) as [r|] eqn:Hx;
    [|discriminate].
  simpl in Hissued. destruct (truthy (r_err r)) eqn:Herr; [discriminate|].
  constructor; [by rewrite Hx, Herr|]. by apply IH.
Qed.

(** ... and then it comes after the completion of each of them. *)
Lemma gated_issued_follows before c' between c after :
  c ∉ before ++ c' :: between →
  issued c (gated env (before ++ c' :: between ++ c :: after)) = true →
  ∃ r, env c' = Some r ∧ truthy (r_err r) = false ∧
       precedes (Completed c' r) (Issued c)
         (gated env (before ++ c' :: between ++ c :: after)).
Proof.
  intros Hnotin Hissued.
  assert (Hsteps : before ++ c' :: between ++ c :: after
                   = (before ++ c' :: between) ++ c :: after)
    by by rewrite <- app_assoc.
  rewrite Hsteps in Hissued.
  apply gated_issued_only_after in Hissued; [|done].
  apply Forall_app in Hissued as [Hbefore Hrest].
  apply Forall_cons in Hrest as [Hc' Hbetween].
  rewrite (gated_after_successes _ _ Hbefore). simpl.
  unfold succeeds in Hc'. destruct (env c') as [r|]; [|discriminate].
  apply negb_true_iff in Hc'. rewrite Hc'.
  exists r. split_and!; [done..|].
  rewrite (gated_after_successes _ _ Hbetween). simpl.
  exists (completed env before ++ [Issued c']), (completed env between).
  eexists. rewrite <- !app_assoc. simpl. done.
Qed.

End series_facts.

Section setup_order.

Variable h : heap.
Variable config : value.
Variable env : environment.

(** The amended C9. With a publish list and a consume target configured, the
    two setup tasks run one after the other, never together: the consume side
    is started only once the publish side has completed without an error, and
    not at all when it has not; the publish side is started only once the
    declaration of the exchange has completed without an error. *)
Theorem setup_tasks_run_in_series :
  valid_config h config = true →
  let queues := field h config "queues" in
  wants_publish h (field h queues "publish") = true →
  truthy (field h queues "consume")
  && truthy (field h (field h queues "consume") "name") = true →
  let open := t_connect (field h config "url") in
  let ch := answer_handle
              (env (t_createConfirmChannel (answer_handle (env open)))) in
  let declare := t_assertExchange ch (field h config "exchange") "topic" in
  let publish_side := t_setupForPublish ch config in
  let consume_side := t_setupForConsume ch config in
  let trace := (run env None (connect h config told)).1 in
  overlap publish_side consume_side trace = false ∧
  (issued consume_side trace = true →
   ∃ r, env publish_side = Some r ∧ truthy (r_err r) = false ∧
        precedes (Completed publish_side r) (Issued consume_side) trace) ∧
  (succeeds env publish_side = false → issued consume_side trace = false) ∧
  (issued publish_side trace = true →
   ∃ r, env declare = Some r ∧ truthy (r_err r) = false ∧
        precedes (Completed declare r) (Issued publish_side) trace).
Proof.
  intros Hvalid queues Hpublish Hconsume open ch declare publish_side
    consume_side trace.
  assert (Htrace : trace = gated env
            [open; t_createConfirmChannel (answer_handle (env open)); declare;
             publish_side; consume_side]).
  { subst trace. rewrite (connect_gated _ _ _ Hvalid). unfold plan, setup_tasks.
    fold queues. by rewrite Hpublish, Hconsume. }
  assert (Hfollows : issued consume_side trace = true →
   ∃ r, env publish_side = Some r ∧ truthy (r_err r) = false ∧
        precedes (Completed publish_side r) (Issued consume_side) trace).
  { rewrite Htrace. intros Hissued.
    apply (gated_issued_follows env
             [open; t_createConfirmChannel (answer_handle (env open)); declare]
             publish_side [] consume_side []); [|done].
    intros Hin. repeat (apply elem_of_cons in Hin as [[=]|Hin]).
    by apply elem_of_nil in Hin. }
  split_and!.
  - rewrite Htrace. by apply gated_one_at_a_time.
  - done.
  - intros Hfails. destruct (issued consume_side trace) eqn:Hissued; [|done].
    destruct (Hfollows eq_refl) as (r & Hr & Herr & _).
    unfold succeeds in Hfails. by rewrite Hr, Herr in Hfails.
  - rewrite Htrace. intros Hissued.
    apply (gated_issued_follows env
             [open; t_createConfirmChannel (answer_handle (env open))]
             declare [] publish_side [consume_side]); [|done].
    intros Hin. repeat (apply elem_of_cons in Hin as [[=]|Hin]).
    by apply elem_of_nil in Hin.
Qed.

End setup_order.

(** ** A configuration without [queues] *)

Section missing_queues.

Implicit Types (h : heap) (w : world) (config : value).

Lemma assoc_set_other k k' v props :
  String.eqb k k' = false → assoc k (assoc_set k' v props) = assoc k props.
Proof.
  intros Hne. induction props as [|[k0 v0] props IH]; simpl.
  - by rewrite Hne.
  - destruct (String.eqb_spec k' k0) as [->|Hk']; simpl.
    + by rewrite Hne.
    + by rewrite IH.
Qed.

Lemma truthy_url_object h config :
  truthy (field h config "url") = true →
  ∃ l props, config = VRef l ∧ h !! l = Some (Obj props).
Proof.
  unfold field. destruct config; simpl; try discriminate.
  destruct (h !! l) as [[props|items]|] eqn:Hl; simpl; try discriminate.
  intros _. by exists l, props.
Qed.

(** Storing the prefetch count changes no other field. *)
Lemma field_after_prefetch h l props v k :
  h !! l = Some (Obj props) → String.eqb k "prefetch" = false →
  field (<[l := Obj (assoc_set "prefetch" v props)]> h) (VRef l) k
  = field h (VRef l) k.
Proof.
  intros Hl Hk. unfold field. simpl. rewrite lookup_insert_eq, Hl.
  by rewrite assoc_set_other.
Qed.

Lemma connect_without_queues h config env :
  truthy config = true →
  field h config "queues" = VUndefined →
  let open := t_connect (field h config "url") in
  let create := t_createConfirmChannel (answer_handle (env open)) in
  let ch := answer_handle (env create) in
  let declare := t_assertExchange ch (field h config "exchange") "topic" in
  Forall (fun c => succeeds env c = true) [open; create; declare] →
  run env None (connect h config told)
  = (completed env [open; create; declare]
     ++ [Escaped (cannot_read "publish" VUndefined)], Some ch).
Proof.
  intros Hconfig Hqueues open create ch declare Hall.
  apply Forall_cons in Hall as [Hopen Hall].
  apply Forall_cons in Hall as [Hcreate Hall].
  apply Forall_cons in Hall as [Hdeclare _].
  subst declare ch create open. unfold succeeds in *.
  unfold connect. rewrite (get_field _ _ _ Hconfig). simpl.
  destruct (env (t_connect _)) as [r1|]; [|discriminate].
  apply negb_true_iff in Hopen. simpl in *.
  unfold createChannel. rewrite Hopen. simpl.
  destruct (env (t_createConfirmChannel _)) as [r2|]; [|discriminate].
  apply negb_true_iff in Hcreate. simpl in *.
  unfold assertExchange. rewrite Hcreate. simpl.
  rewrite (get_field _ _ _ Hconfig). simpl.
  destruct (env (t_assertExchange _ _ _)) as [r3|]; [|discriminate].
  apply negb_true_iff in Hdeclare. simpl.
  unfold assertQueues. rewrite Hdeclare.
  rewrite (get_field _ _ _ Hconfig), Hqueues. done.
Qed.

(** C10. A configuration with a url and an exchange and no [queues] passes
    the constructor, which makes no call on the transport.  When the
    connection, the channel and the declaration of the exchange then succeed,
    [connect] ends in the [TypeError] of reading [publish] of [undefined],
    thrown into the event loop from the callback of the declaration: the
    caller's callback is never called, with an error or without. *)
Theorem missing_queues_escapes_connect config w :
  truthy (field (w_heap w) config "url") = true →
  truthy (field (w_heap w) config "exchange") = true →
  field (w_heap w) config "queues" = VUndefined →
  ∃ w',
    amqp_wrapper config w = (Normal {| config := config; channel := None |}, w') ∧
    w_calls w' = w_calls w ∧
    ∀ env,
      let open := t_connect (field (w_heap w) config "url") in
      let create := t_createConfirmChannel (answer_handle (env open)) in
      let ch := answer_handle (env create) in
      let declare :=
        t_assertExchange ch (field (w_heap w) config "exchange") "topic" in
      Forall (fun c => succeeds env c = true) [open; create; declare] →
      run env None (connect (w_heap w') config told)
      = (completed env [open; create; declare]
         ++ [Escaped (cannot_read "publish" VUndefined)], Some ch).
Proof.
  intros Hurl Hexchange Hqueues.
  destruct (truthy_url_object _ _ Hurl) as (l & props & -> & Hl).
  set (h' := <[l := Obj (assoc_set "prefetch"
                           (js_or (field (w_heap w) (VRef l) "prefetch")
                              (VNum 10)) props)]> (w_heap w)).
  exists (with_heap w h'). split_and!.
  - unfold amqp_wrapper, bind. rewrite invalid_config_eq, Hurl, Hexchange.
    simpl. unfold lift, store, ret. simpl. rewrite Hl.
    unfold with_heap, h', field. simpl. by rewrite Hl.
  - done.
  - intros env. simpl.
    rewrite <- (field_after_prefetch (w_heap w) l props
                  (js_or (field (w_heap w) (VRef l) "prefetch") (VNum 10))
                  "url" Hl eq_refl).
    rewrite <- (field_after_prefetch (w_heap w) l props
                  (js_or (field (w_heap w) (VRef l) "prefetch") (VNum 10))
                  "exchange" Hl eq_refl).
    apply connect_without_queues; [done|].
    fold h'. unfold h'. by rewrite field_after_prefetch.
Qed.

End missing_queues.

(** ** The statements at work *)

Section at_work.

Lemma parse_text_a1 : parse_text (content delivery_a1) = Some payload_a1.
Proof. reflexivity. Qed.

Lemma parse_text_bad : parse_text (content delivery_bad) = None.
Proof. reflexivity. Qed.

(** The constructor on [{ exchange: 'ex' }]. *)
Lemma construction_rejects_no_url :
  field heap_no_url config0 "url" = VUndefined ∧
  amqp_wrapper config0 (world_of heap_no_url)
  = (Thrown (VError Error "amqp-wrapper: Invalid config"), world_of heap_no_url).
Proof.
  split; [reflexivity|].
  apply (construction_rejects_missing_fields config0 (world_of heap_no_url)).
  right; left. reflexivity.
Defined.

(** C1 as the spec words it fails: [publishToQueue('payments', 'hello')], with
    [orders] the only target, hands nothing to the transport; the call throws. *)
Lemma publishToQueue_payments_throws :
  publishToQueue connected0 "payments" (VStr "hello") world0
  = (Thrown (VError TypeError "Cannot read property 'routingKey' of undefined"),
     world0) ∧
  w_calls (publishToQueue connected0 "payments" (VStr "hello") world0).2 = [].
Proof. split; reflexivity. Qed.

Lemma publishToQueue_unknown_target_at_work :
  publishToQueue connected0 "payments" (VStr "hello") world0
  = (Thrown (cannot_read "routingKey" VUndefined), world0).
Proof.
  apply (publishToQueue_unknown_target connected0 world0 "payments"
           (VStr "hello") 7%nat); [reflexivity|reflexivity|].
  repeat constructor.
Defined.



(** The scenario of the spec: [publishToQueue('orders', { id: 1 })]. *)
Example publishToQueue_orders :
  w_calls (publishToQueue connected0 "orders" (VRef 8%nat) world0).2
  = [t_publish 7%nat (VStr "ex") (VStr "orders.created") text_id1
       (VRef 9%nat)].
Proof. reflexivity. Qed.

(** C2 as the spec words it fails: a handler that calls [done] twice has its
    delivery acked twice; one that calls [done] and then throws has it acked
    and then nacked; one that never calls [done] leaves it unresolved. *)
Lemma delivery_resolved_twice_or_never :
  resolutions
    (w_calls (deliver json parse_text resolves_twice connected0 delivery_a1
                world0).2)
  = [t_ack 7%nat delivery_a1; t_ack 7%nat delivery_a1] ∧
  resolutions
    (w_calls (deliver json parse_text resolves_then_throws connected0
                delivery_a1 world0).2)
  = [t_ack 7%nat delivery_a1; t_nack 7%nat delivery_a1 false (VBool false)] ∧
  resolutions
    (w_calls (deliver json parse_text never_resolves connected0 delivery_a1
                world0).2)
  = [].
Proof. split_and!; reflexivity. Qed.

Lemma resolutions_follow_the_handler_at_work :
  ∃ extra,
    w_calls (deliver json parse_text resolves_then_throws connected0
               delivery_a1 world0).2 = [] ++ extra ∧
    Forall (fun c => c = t_ack 7%nat delivery_a1 ∨
                     ∃ requeue, c = t_nack 7%nat delivery_a1 false requeue)
      extra ∧
    length extra = 2%nat.
Proof.
  apply (resolutions_follow_the_handler json parse_text connected0 7%nat
           resolves_then_throws delivery_a1 world0 eq_refl).
Defined.

(** The handshake on a transport where everything works. *)
Lemma connect_at_work :
  (run env_ok None (connect heap0 config0 told)).1
  = completed env_ok
      [t_connect (VStr "amqp://localhost"); t_createConfirmChannel 3%nat;
       t_assertExchange 7%nat (VStr "ex") "topic";
       t_setupForPublish 7%nat config0; t_setupForConsume 7%nat config0]
    ++ [CalledBack VNull].
Proof.
  destruct (connect_is_gated_and_fails_fast heap0 config0 env_ok eq_refl)
    as (_ & _ & _ & Hsuccess).
  apply Hsuccess. repeat constructor.
Defined.

(** The scenarios of the spec: [done(null)], [done(err)], [done(err, true)]. *)
Lemma resolution_decides_at_work :
  w_calls (deliver json parse_text resolves_null connected0 delivery_a1
             world0).2 = [t_ack 7%nat delivery_a1] ∧
  w_calls (deliver json parse_text resolves_error connected0 delivery_a1
             world0).2 = [t_nack 7%nat delivery_a1 false (VBool false)] ∧
  w_calls (deliver json parse_text resolves_error_requeue connected0
             delivery_a1 world0).2
  = [t_nack 7%nat delivery_a1 false (VBool true)].
Proof.
  split_and!.
  - apply (resolution_decides_ack_or_nack json parse_text connected0 7%nat
             resolves_null delivery_a1 payload_a1 VNull VUndefined world0
             eq_refl parse_text_a1 (or_introl eq_refl)).
    reflexivity.
  - apply (resolution_decides_ack_or_nack json parse_text connected0 7%nat
             resolves_error delivery_a1 payload_a1 failure VUndefined world0
             eq_refl parse_text_a1 (or_introl eq_refl)); reflexivity.
  - apply (resolution_decides_ack_or_nack json parse_text connected0 7%nat
             resolves_error_requeue delivery_a1 payload_a1 failure (VBool true)
             world0 eq_refl parse_text_a1 (or_introl eq_refl)); reflexivity.
Defined.

(** The scenario of the spec: the payload [not-json]. *)
Lemma malformed_payload_at_work :
  deliver json parse_text resolves_null connected0 delivery_bad world0
  = (Normal tt,
     after world0 [t_nack 7%nat delivery_bad false (VBool false)]
       [VError SyntaxError "Unexpected token in JSON"]).
Proof.
  apply (malformed_payload_is_nacked json parse_text connected0 7%nat
           resolves_null delivery_bad world0 eq_refl parse_text_bad).
Defined.

(** C6 fails here: a handler that does [throw null] has its delivery acked.
    The catch hands the thrown value to [done], which takes a value that
    counts as false for no error at all. *)
Theorem throwing_null_is_acked :
  deliver json parse_text throws_null connected0 delivery_a1 world0
  = (Normal tt, after world0 [t_ack 7%nat delivery_a1] [VNull]).
Proof. reflexivity. Qed.

Example throwing_error_is_nacked :
  deliver json parse_text throws_error connected0 delivery_a1 world0
  = (Normal tt,
     after world0 [t_nack 7%nat delivery_a1 false (VBool false)] [failure]).
Proof. reflexivity. Qed.

(** C9 as the spec words it fails: the two setup tasks are never outstanding
    together, and the consume side is not even started when the publish side
    fails. *)
Lemma setup_tasks_do_not_overlap :
  overlap (t_setupForPublish 7%nat config0) (t_setupForConsume 7%nat config0)
    (run env_ok None (connect heap0 config0 told)).1 = false ∧
  issued (t_setupForConsume 7%nat config0)
    (run env_publish_setup_fails None (connect heap0 config0 told)).1 = false.
Proof. split; reflexivity. Qed.

Lemma setup_tasks_run_in_series_at_work :
  overlap (t_setupForPublish 7%nat config0) (t_setupForConsume 7%nat config0)
    (run env_ok None (connect heap0 config0 told)).1 = false ∧
  precedes
    (Completed (t_setupForPublish 7%nat config0)
       {| r_err := VNull; r_result := O |})
    (Issued (t_setupForConsume 7%nat config0))
    (run env_ok None (connect heap0 config0 told)).1.
Proof.
  destruct (setup_tasks_run_in_series heap0 config0 env_ok eq_refl eq_refl
              eq_refl) as (Hnever & Hfollows & _ & _).
  split; [exact Hnever|].
  destruct (Hfollows eq_refl) as (r & Hr & _ & Hbefore).
  injection Hr as <-. exact Hbefore.
Defined.

(** [connect] on [{ url, exchange }]. *)
Lemma missing_queues_at_work :
  ∃ w',
    amqp_wrapper config0 (world_of heap_no_queues)
    = (Normal {| config := config0; channel := None |}, w') ∧
    w_calls w' = [] ∧
    run env_ok None (connect (w_heap w') config0 told)
    = (completed env_ok
         [t_connect (VStr "amqp://localhost"); t_createConfirmChannel 3%nat;
          t_assertExchange 7%nat (VStr "ex") "topic"]
       ++ [Escaped (VError TypeError
                      "Cannot read property 'publish' of undefined")],
       Some 7%nat).
Proof.
  destruct (missing_queues_escapes_connect config0 (world_of heap_no_queues)
              eq_refl eq_refl eq_refl) as (w' & Hmade & Hcalls & Hconnect).
  exists w'. split_and!; [exact Hmade|exact Hcalls|].
  apply (Hconnect env_ok). repeat constructor.
Defined.

End at_work.

(** ** More on construction *)

Section construction_more.

Implicit Types (h : heap) (w : world) (config : value) (props : list (string * value)).

Lemma assoc_set_same k v props : assoc k (assoc_set k v props) = Some v.
Proof.
  induction props as [|[k0 v0] props IH]; simpl.
  - by rewrite String.eqb_refl.
  - destruct (String.eqb_spec k k0) as [->|Hne]; simpl.
    + by rewrite String.eqb_refl.
    + by rewrite (proj2 (String.eqb_neq k k0) Hne).
Qed.

Lemma assoc_set_twice k v v' props :
  assoc_set k v (assoc_set k v' props) = assoc_set k v props.
Proof.
  induction props as [|[k0 v0] props IH]; simpl.
  - by rewrite String.eqb_refl.
  - destruct (String.eqb_spec k k0) as [->|Hne]; simpl.
    + by rewrite String.eqb_refl.
    + by rewrite (proj2 (String.eqb_neq k k0) Hne), IH.
Qed.

Lemma accepted_object h config :
  accepted h config = true →
  ∃ l props, config = VRef l ∧ h !! l = Some (Obj props).
Proof. intros [Hurl _]%andb_true_iff. by apply truthy_url_object. Qed.

(** What the constructor does to a configuration it lets through. *)
Lemma amqp_wrapper_accepted l props w :
  w_heap w !! l = Some (Obj props) →
  accepted (w_heap w) (VRef l) = true →
  amqp_wrapper (VRef l) w
  = (Normal {| config := VRef l; channel := None |},
     with_heap w
       (<[l := Obj (assoc_set "prefetch" (prefetch_of (w_heap w) (VRef l))
                      props)]> (w_heap w))).
Proof.
  intros Hl [Hurl Hexchange]%andb_true_iff.
  unfold amqp_wrapper, bind. rewrite invalid_config_eq, Hurl, Hexchange.
  simpl. unfold lift, store, ret. simpl. rewrite Hl.
  unfold with_heap, prefetch_of, field. simpl. by rewrite Hl.
Qed.

Lemma amqp_wrapper_refused config w :
  accepted (w_heap w) config = false →
  amqp_wrapper config w
  = (Thrown (VError Error "amqp-wrapper: Invalid config"), w).
Proof.
  intros Hacc. unfold amqp_wrapper, bind. rewrite invalid_config_eq.
  unfold accepted in Hacc.
  assert (Hrefused : truthy config && truthy (field (w_heap w) config "url")
                     && truthy (field (w_heap w) config "exchange") = false).
  { rewrite <- andb_assoc, Hacc. apply andb_false_r. }
  by rewrite Hrefused.
Qed.

(** The constructor lets a configuration through exactly when its [url] and
    its [exchange] both count as true: an empty string is refused like a
    missing field.  Either way it makes no call on the transport and logs
    nothing, and the one exception it can throw is [Invalid config]. *)
Theorem construction_decided_by_truthiness config w :
  (amqp_wrapper config w).1
  = (if accepted (w_heap w) config
     then Normal {| config := config; channel := None |}
     else Thrown (VError Error "amqp-wrapper: Invalid config")) ∧
  w_calls (amqp_wrapper config w).2 = w_calls w ∧
  w_console (amqp_wrapper config w).2 = w_console w.
Proof.
  destruct (accepted (w_heap w) config) eqn:Hacc.
  - destruct (accepted_object _ _ Hacc) as (l & props & -> & Hl).
    by rewrite (amqp_wrapper_accepted _ _ _ Hl Hacc).
  - by rewrite (amqp_wrapper_refused _ _ Hacc).
Qed.

(** A configuration that is let through comes out with a prefetch count that
    counts as true: its own when it had one, 10 when it had none or had 0.
    No other field of the configuration and no other object is touched. *)
Theorem construction_sets_prefetch config w :
  accepted (w_heap w) config = true →
  let h' := w_heap (amqp_wrapper config w).2 in
  field h' config "prefetch" = prefetch_of (w_heap w) config ∧
  truthy (field h' config "prefetch") = true ∧
  (∀ k, String.eqb k "prefetch" = false →
        field h' config k = field (w_heap w) config k) ∧
  (∀ l, VRef l ≠ config → h' !! l = w_heap w !! l).
Proof.
  intros Hacc. destruct (accepted_object _ _ Hacc) as (l & props & -> & Hl).
  rewrite (amqp_wrapper_accepted _ _ _ Hl Hacc). simpl.
  assert (Hprefetch :
    field (<[l := Obj (assoc_set "prefetch" (prefetch_of (w_heap w) (VRef l))
                         props)]> (w_heap w)) (VRef l) "prefetch"
    = prefetch_of (w_heap w) (VRef l)).
  { unfold field at 1. simpl. by rewrite lookup_insert_eq, assoc_set_same. }
  split_and!.
  - done.
  - rewrite Hprefetch. unfold prefetch_of, js_or.
    by destruct (truthy (field (w_heap w) (VRef l) "prefetch")) eqn:Hp.
  - intros k Hk. by apply field_after_prefetch.
  - intros l' Hne. apply lookup_insert_ne. congruence.
Qed.

(** Constructing a second wrapper from a configuration that has been through
    the constructor changes nothing: the prefetch count it finds is kept. *)
Theorem construction_idempotent config w cl w' :
  amqp_wrapper config w = (Normal cl, w') →
  amqp_wrapper config w' = (Normal cl, w').
Proof.
  intros Hmade. destruct (accepted (w_heap w) config) eqn:Hacc;
    [|by rewrite (amqp_wrapper_refused _ _ Hacc) in Hmade].
  destruct (accepted_object _ _ Hacc) as (l & props & -> & Hl).
  rewrite (amqp_wrapper_accepted _ _ _ Hl Hacc) in Hmade.
  injection Hmade as <- <-.
  set (p := prefetch_of (w_heap w) (VRef l)).
  set (h' := <[l := Obj (assoc_set "prefetch" p props)]> (w_heap w)).
  assert (Hl' : h' !! l = Some (Obj (assoc_set "prefetch" p props)))
    by apply lookup_insert_eq.
  assert (Hacc' : accepted h' (VRef l) = true).
  { unfold accepted, h'. by rewrite !field_after_prefetch. }
  assert (Hp : prefetch_of h' (VRef l) = p).
  { unfold prefetch_of at 1, field. simpl. rewrite Hl', assoc_set_same. simpl.
    unfold p, prefetch_of, js_or.
    by destruct (truthy (field (w_heap w) (VRef l) "prefetch")) eqn:Hq;
      simpl; rewrite ?Hq. }
  rewrite (amqp_wrapper_accepted l (assoc_set "prefetch" p props)
             (with_heap w h') Hl' Hacc').
  simpl. rewrite Hp, assoc_set_twice. unfold with_heap. simpl.
  by rewrite (insert_id h' l _ Hl').
Qed.

End construction_more.

(** ** More on the publish paths *)

Section publish_more.

Implicit Types (h : heap) (w : world) (cl : closure) (message : value).

Lemma serialize_other message w :
  String.eqb (typeof message) "object" = false →
  serialize message w = (Normal message, w).
Proof. intros Hty. unfold serialize. by rewrite Hty. Qed.

Lemma publish_sends cl w ch routingKey message options m bytes :
  channel cl = Some ch → truthy (config cl) = true →
  serialize message w = (Normal m, w) → Buffer_new m = Normal bytes →
  publish cl routingKey message options w
  = (Normal tt,
     with_calls w
       (w_calls w ++
        [t_publish ch (field (w_heap w) (config cl) "exchange") routingKey
           bytes options])).
Proof.
  intros Hch Hconfig Hser Hbytes. unfold publish, bind. rewrite Hser.
  unfold channel_method. rewrite Hch. unfold ret, lift.
  by rewrite (get_field _ _ _ Hconfig), Hbytes.
Qed.

Lemma publish_refuses cl w ch routingKey message options m e :
  channel cl = Some ch → truthy (config cl) = true →
  serialize message w = (Normal m, w) → Buffer_new m = Thrown e →
  publish cl routingKey message options w = (Thrown e, w).
Proof.
  intros Hch Hconfig Hser Hbytes. unfold publish, bind. rewrite Hser.
  unfold channel_method. rewrite Hch. unfold ret, lift.
  by rewrite (get_field _ _ _ Hconfig), Hbytes.
Qed.



(** Before [connect] has stored a channel, [publish] and [consume] throw the
    [TypeError] of calling a method of [undefined], and so does
    [publishToQueue] on a valid configuration; nothing reaches the transport
    and the world is as it was. *)
Theorem methods_throw_before_connect cl w :
  channel cl = None →
  (∀ routingKey message options,
     publish cl routingKey message options w
     = (Thrown (cannot_read "publish" VUndefined), w)) ∧
  consume cl w = (Thrown (cannot_read "consume" VUndefined), w) ∧
  (valid_config (w_heap w) (config cl) = true →
   ∀ name message,
     publishToQueue cl name message w
     = (Thrown (cannot_read "publish" VUndefined), w)).
Proof.
  intros Hch. split_and!.
  - intros routingKey message options. unfold publish, bind.
    destruct (serialize_returns message w) as [m ->].
    unfold channel_method. by rewrite Hch.
  - unfold consume, bind, channel_method. by rewrite Hch.
  - intros Hvalid name message. unfold publishToQueue, bind.
    destruct (serialize_returns message w) as [m ->].
    unfold lift at 1.
    rewrite (get_field _ _ _ (valid_config_url _ _ Hvalid)).
    unfold lift at 1.
    rewrite (get_field_not_nullish _ _ _ (valid_config_queues _ _ Hvalid)).
    unfold lift at 1. unfold channel_method. by rewrite Hch.
Qed.

(** [publish] hands a string message over as it is, byte for byte, with the
    routing key and the options it was given, in one call; it reads nothing
    of the configuration but the exchange, so it works without [queues], and
    it leaves the heap and the console alone. *)
Theorem publish_string_verbatim cl w ch routingKey text options :
  channel cl = Some ch → truthy (config cl) = true →
  publish cl routingKey (VStr text) options w
  = (Normal tt,
     with_calls w
       (w_calls w ++
        [t_publish ch (field (w_heap w) (config cl) "exchange") routingKey
           text options])).
Proof.
  intros Hch Hconfig.
  by apply (publish_sends cl w ch routingKey (VStr text) options (VStr text)).
Qed.

(** A message that is [undefined] or a boolean is neither a string nor
    serialized: [new Buffer] refuses it, the [TypeError] leaves [publish] and
    [publishToQueue] alike, and nothing is handed to the transport. *)
Theorem publish_refuses_undefined_and_booleans cl w ch message :
  channel cl = Some ch → valid_config (w_heap w) (config cl) = true →
  message = VUndefined ∨ (∃ b, message = VBool b) →
  ∃ text,
    (∀ routingKey options,
       publish cl routingKey message options w
       = (Thrown (VError TypeError text), w)) ∧
    (∀ name target,
       List.find (has_name (w_heap w) name)
         (publish_targets (w_heap w) (config cl)) = Some target →
       publishToQueue cl name message w = (Thrown (VError TypeError text), w)).
Proof.
  intros Hch Hvalid Hmessage.
  pose proof (valid_config_url _ _ Hvalid) as Hconfig.
  exists "First argument must be a string or a number".
  assert (Hser : serialize message w = (Normal message, w)).
  { apply serialize_other. by destruct Hmessage as [->|[b ->]]. }
  assert (Hbuf : Buffer_new message
                 = Thrown (VError TypeError
                             "First argument must be a string or a number")).
  { by destruct Hmessage as [->|[b ->]]. }
  split.
  - intros routingKey options.
    by apply (publish_refuses cl w ch routingKey message options message).
  - intros name target Hfind. unfold publishToQueue, bind.
    rewrite Hser. unfold lift at 1. rewrite (get_field _ _ _ Hconfig).
    unfold lift at 1.
    rewrite (get_field_not_nullish _ _ _ (valid_config_queues _ _ Hvalid)).
    unfold lift at 1. unfold lodash_find.
    unfold publish_targets in Hfind. rewrite Hfind. simpl.
    unfold channel_method. rewrite Hch. unfold ret, lift.
    rewrite (get_field _ _ _ Hconfig).
    apply find_some in Hfind as [_ Hname%has_name_not_nullish].
    by rewrite (get_field_not_nullish _ _ _ Hname), Hbuf.
Qed.



(** Without [queues] in the configuration [publishToQueue] throws the
    [TypeError] of reading [publish] of [undefined], connected or not, and
    hands nothing to the transport. *)
Theorem publishToQueue_needs_queues cl w name message :
  truthy (config cl) = true →
  field (w_heap w) (config cl) "queues" = VUndefined →
  publishToQueue cl name message w
  = (Thrown (cannot_read "publish" VUndefined), w).
Proof.
  intros Hconfig Hqueues. unfold publishToQueue, bind.
  destruct (serialize_returns message w) as [m ->].
  unfold lift at 1. rewrite (get_field _ _ _ Hconfig), Hqueues.
  by unfold lift.
Qed.

End publish_more.

(** ** More on the consume side *)

Section consume_more.

Implicit Types (h : heap) (w : world) (cl : closure) (message : delivery).

(** On a connected wrapper whose configuration has a consume target,
    [consume] makes one call, [channel.consume] on the name of the target
    with [noAck] false, and nothing else; the name goes out as it is read,
    [undefined] when the target has none. *)
Theorem consume_registers_once cl w ch :
  channel cl = Some ch → valid_config (w_heap w) (config cl) = true →
  nullish (consume_target (w_heap w) (config cl)) = false →
  consume cl w
  = (Normal tt,
     with_calls w
       (w_calls w ++
        [t_consume ch
           (field (w_heap w) (consume_target (w_heap w) (config cl)) "name")
           false])).
Proof.
  intros Hch Hvalid Htarget. unfold consume, bind, channel_method.
  rewrite Hch. unfold ret, lift.
  rewrite (get_field _ _ _ (valid_config_url _ _ Hvalid)).
  rewrite (get_field_not_nullish _ _ _ (valid_config_queues _ _ Hvalid)).
  unfold consume_target in Htarget.
  by rewrite (get_field_not_nullish _ _ _ Htarget).
Qed.

(** With no consume target in the configuration, which [connect] accepts by
    skipping the consume setup, [consume] throws the [TypeError] of reading
    [name] of [undefined] and registers nothing. *)
Theorem consume_needs_a_target cl w ch :
  channel cl = Some ch → valid_config (w_heap w) (config cl) = true →
  consume_target (w_heap w) (config cl) = VUndefined →
  consume cl w = (Thrown (cannot_read "name" VUndefined), w).
Proof.
  intros Hch Hvalid Htarget. unfold consume, bind, channel_method.
  rewrite Hch. unfold ret, lift.
  rewrite (get_field _ _ _ (valid_config_url _ _ Hvalid)).
  rewrite (get_field_not_nullish _ _ _ (valid_config_queues _ _ Hvalid)).
  unfold consume_target in Htarget. by rewrite Htarget.
Qed.

Variable parsed : Type.
Variable JSON_parse : string → option parsed.

Implicit Types (handleMessage : parsed → handler_run).

(** On a connected wrapper the callback of a delivery never throws, whatever
    the payload and whatever the handler does, so nothing of one delivery
    can stop the next; and what a delivery adds to the calls and to the
    console does not depend on what was there: the dispatcher keeps no state
    between deliveries and leaves the heap alone. *)
Theorem delivery_is_contained handleMessage cl ch message :
  channel cl = Some ch →
  ∃ calls logged calls' logged',
    (∀ w, callback parsed JSON_parse handleMessage cl message w
          = (Normal tt, after w calls logged)) ∧
    (∀ w, deliver parsed JSON_parse handleMessage cl message w
          = (Normal tt, after w calls' logged')).
Proof.
  intros Hch. destruct (JSON_parse (content message)) as [p|] eqn:Hp.
  - eexists _, _, _, _. split; intros w.
    + apply (callback_parsed _ _ _ _ _ Hch _ _ _ Hp).
    + apply (deliver_parsed _ _ _ _ _ Hch _ _ _ Hp).
  - eexists _, _, _, _. split; intros w.
    + apply (callback_malformed _ _ _ _ _ Hch _ _ Hp).
    + unfold deliver. rewrite Hp. simpl.
      by rewrite (callback_malformed _ _ _ _ _ Hch _ _ Hp).
Qed.

Lemma deliver_resolved_once handleMessage cl ch message p err requeue w :
  channel cl = Some ch →
  JSON_parse (content message) = Some p →
  resolves_once (handleMessage p) err requeue →
  deliver parsed JSON_parse handleMessage cl message w
  = (Normal tt, after w [resolution ch message (err, requeue)] []).
Proof.
  intros Hch Hp Honce. rewrite (deliver_parsed _ _ _ _ _ Hch _ _ _ Hp).
  by destruct Honce as [-> | ->].
Qed.

(** [done] takes whatever counts as false for no error: a handler that calls
    [done(0)], [done('')], [done(false)] or [done(undefined)] has its delivery
    acked like one that calls [done(null)], and the requeue flag it may have
    passed is ignored.  Nothing is logged. *)
Theorem falsy_error_is_an_ack handleMessage cl ch message p err requeue w :
  channel cl = Some ch →
  JSON_parse (content message) = Some p →
  resolves_once (handleMessage p) err requeue →
  truthy err = false →
  deliver parsed JSON_parse handleMessage cl message w
  = (Normal tt, after w [t_ack ch message] []).
Proof.
  intros Hch Hp Honce Herr.
  rewrite (deliver_resolved_once _ _ _ _ _ _ _ _ Hch Hp Honce).
  unfold resolution. simpl. by rewrite Herr.
Qed.

(** A requeue flag that is given goes to [channel.nack] as it is, not made a
    boolean: [done(err, null)] nacks with [null], [done(err, 'yes')] with
    ['yes'].  Only a flag left out is replaced, by [false]; and the nack
    never covers other deliveries (its second argument is always [false]). *)
Theorem requeue_flag_is_passed_on handleMessage cl ch message p err requeue w :
  channel cl = Some ch →
  JSON_parse (content message) = Some p →
  resolves_once (handleMessage p) err requeue →
  truthy err = true → requeue ≠ VUndefined →
  deliver parsed JSON_parse handleMessage cl message w
  = (Normal tt, after w [t_nack ch message false requeue] []).
Proof.
  intros Hch Hp Honce Herr Hrequeue.
  rewrite (deliver_resolved_once _ _ _ _ _ _ _ _ Hch Hp Honce).
  unfold resolution. simpl. rewrite Herr. by destruct requeue.
Qed.

End consume_more.

(** ** More on the handshake *)

Section handshake_more.

Variable h : heap.
Variable config : value.
Variable env : environment.

Implicit Types (steps : list tcall) (c : tcall) (tr : list event).








(** What [var channel] holds when [connect] is over. *)
Lemma connect_channel :
  valid_config h config = true →
  let open := t_connect (field h config "url") in
  let create := t_createConfirmChannel (answer_handle (env open)) in
  (run env None (connect h config told)).2
  = if succeeds env open && succeeds env create
    then Some (answer_handle (env create)) else None.
Proof.
  intros Hvalid open create.
  destruct (succeeds env open) eqn:Hopen; simpl.
  { destruct (succeeds env create) eqn:Hcreate.
    - by apply connect_stores_channel.
    - subst create open. unfold succeeds in *.
      pose proof (valid_config_url _ _ Hvalid) as Hconfig.
      unfold connect. rewrite (get_field _ _ _ Hconfig). simpl.
      destruct (env (t_connect _)) as [r1|]; [|discriminate].
      apply negb_true_iff in Hopen. simpl in *.
      unfold createChannel. rewrite Hopen. simpl.
      destruct (env (t_createConfirmChannel _)) as [r2|]; [|done].
      apply negb_false_iff in Hcreate. simpl.
      unfold assertExchange. by rewrite Hcreate. }
  subst open. unfold succeeds in Hopen.
  pose proof (valid_config_url _ _ Hvalid) as Hconfig.
  unfold connect. rewrite (get_field _ _ _ Hconfig). simpl.
  destruct (env (t_connect _)) as [r1|]; [|done].
  apply negb_false_iff in Hopen. simpl.
  unfold createChannel. by rewrite Hopen.
Qed.

(** [connect] stores the channel as soon as it is created, before the
    exchange is declared.  So a wrapper whose [connect] got as far as the
    channel publishes on it, even when the declaration or the setup then
    failed and the caller was told so; one whose [connect] did not get that
    far throws on [publish], as before [connect]. *)
Theorem publish_after_connect w routingKey text options :
  valid_config h config = true → w_heap w = h →
  let open := t_connect (field h config "url") in
  let create := t_createConfirmChannel (answer_handle (env open)) in
  publish (connected_by h config env) routingKey (VStr text) options w
  = if succeeds env open && succeeds env create
    then (Normal tt,
          with_calls w
            (w_calls w ++
             [t_publish (answer_handle (env create)) (field h config "exchange")
                routingKey text options]))
    else (Thrown (cannot_read "publish" VUndefined), w).
Proof.
  intros Hvalid Hw open create.
  pose proof (connect_channel Hvalid) as Hchannel. simpl in Hchannel.
  fold open create in Hchannel.
  destruct (succeeds env open && succeeds env create).
  - rewrite (publish_sends (connected_by h config env) w
               (answer_handle (env create)) routingKey (VStr text) options
               (VStr text) text); [by rewrite Hw|done| |done|done].
    simpl. apply (valid_config_url _ _ Hvalid).
  - unfold publish, bind, serialize. simpl. unfold ret, channel_method.
    simpl. by rewrite Hchannel.
Qed.

Lemma gated_issued_in c steps :
  issued c (gated env steps) = true → c ∈ steps.
Proof.
  induction steps as [|x steps IH]; simpl; [discriminate|].
  destruct (bool_decide_reflect (x = c)) as [->|Hne]; simpl;
    [intros _; apply list_elem_of_here|].
  intros Hissued. apply list_elem_of_further.
  destruct (env x) as [r|]; simpl in Hissued; [|discriminate].
  destruct (truthy (r_err r)); [discriminate|]. by apply IH.
Qed.

(** A configuration that asks for no setup, with no publish list and no
    consume target ([queues: {}]), is connected once the exchange is
    declared: the caller is told of success right after the declaration. *)
Theorem connect_without_setup :
  valid_config h config = true →
  let queues := field h config "queues" in
  wants_publish h (field h queues "publish") = false →
  truthy (field h queues "consume")
  && truthy (field h (field h queues "consume") "name") = false →
  let open := t_connect (field h config "url") in
  let create := t_createConfirmChannel (answer_handle (env open)) in
  let declare := t_assertExchange (answer_handle (env create))
                   (field h config "exchange") "topic" in
  Forall (fun c => succeeds env c = true) [open; create; declare] →
  (run env None (connect h config told)).1
  = completed env [open; create; declare] ++ [CalledBack VNull].
Proof.
  intros Hvalid queues Hpublish Hconsume open create declare Hall.
  rewrite (connect_gated _ _ _ Hvalid). unfold plan, setup_tasks.
  fold queues. rewrite Hpublish, Hconsume. by apply gated_all_succeed.
Qed.

(** The setup is skipped, not failed, where the configuration does not ask
    for it in the expected form: a publish list that is missing or is not an
    Array (an object keyed by name, say) never leads to the publish setup,
    and a consume target that is missing or has no name never leads to the
    consume setup, whatever the transport answers. *)
Theorem setup_is_skipped_silently :
  valid_config h config = true →
  let queues := field h config "queues" in
  (wants_publish h (field h queues "publish") = false →
   ∀ ch, issued (t_setupForPublish ch config)
           (run env None (connect h config told)).1 = false) ∧
  (truthy (field h queues "consume")
   && truthy (field h (field h queues "consume") "name") = false →
   ∀ ch, issued (t_setupForConsume ch config)
           (run env None (connect h config told)).1 = false).
Proof.
  intros Hvalid queues. rewrite (connect_gated _ _ _ Hvalid).
  unfold plan, setup_tasks. fold queues. split.
  - intros Hpublish ch. rewrite Hpublish.
    destruct (issued _ _) eqn:Hissued; [|done].
    apply gated_issued_in in Hissued.
    repeat (apply elem_of_cons in Hissued as [[=]|Hissued]).
    simpl in Hissued. destruct (_ && _).
    + repeat (apply elem_of_cons in Hissued as [[=]|Hissued]).
      by apply elem_of_nil in Hissued.
    + by apply elem_of_nil in Hissued.
  - intros Hconsume ch. rewrite Hconsume.
    destruct (issued _ _) eqn:Hissued; [|done].
    apply gated_issued_in in Hissued.
    repeat (apply elem_of_cons in Hissued as [[=]|Hissued]).
    simpl in Hissued. rewrite app_nil_r in Hissued.
    destruct (wants_publish _ _).
    + repeat (apply elem_of_cons in Hissued as [[=]|Hissued]).
      by apply elem_of_nil in Hissued.
    + by apply elem_of_nil in Hissued.
Qed.

End handshake_more.

(** ** These at work *)

Section more_at_work.

(** [prefetch: 0] becomes 10. *)
Lemma construction_sets_prefetch_at_work :
  field (w_heap (amqp_wrapper config0 (world_of heap_bare)).2) config0 "prefetch"
  = VNum 10.
Proof.
  destruct (construction_sets_prefetch config0 (world_of heap_bare) eq_refl)
    as (Hprefetch & _).
  rewrite Hprefetch. reflexivity.
Defined.

Lemma construction_idempotent_at_work :
  amqp_wrapper config0 (amqp_wrapper config0 world0).2
  = (Normal fresh0, (amqp_wrapper config0 world0).2).
Proof.
  apply (construction_idempotent config0 world0 fresh0
           (amqp_wrapper config0 world0).2).
  reflexivity.
Defined.

Lemma methods_throw_before_connect_at_work :
  publish fresh0 (VStr "orders.created") (VStr "hello") VUndefined world0
  = (Thrown (VError TypeError "Cannot read property 'publish' of undefined"),
     world0) ∧
  consume fresh0 world0
  = (Thrown (VError TypeError "Cannot read property 'consume' of undefined"),
     world0) ∧
  publishToQueue fresh0 "orders" (VStr "hello") world0
  = (Thrown (VError TypeError "Cannot read property 'publish' of undefined"),
     world0).
Proof.
  destruct (methods_throw_before_connect fresh0 world0 eq_refl)
    as (Hpublish & Hconsume & Hqueue).
  split_and!.
  - apply Hpublish.
  - apply Hconsume.
  - apply (Hqueue eq_refl).
Defined.

Lemma publish_string_verbatim_at_work :
  publish connected0 (VStr "orders.created") (VStr "hello") (VRef 8%nat) world0
  = (Normal tt,
     with_calls world0
       [t_publish 7%nat (VStr "ex") (VStr "orders.created") "hello"
          (VRef 8%nat)]).
Proof.
  apply (publish_string_verbatim connected0 world0 7%nat
           (VStr "orders.created") "hello" (VRef 8%nat) eq_refl eq_refl).
Defined.

Lemma publish_refuses_undefined_at_work :
  ∃ text,
    publish connected0 (VStr "orders.created") VUndefined VUndefined world0
    = (Thrown (VError TypeError text), world0) ∧
    publishToQueue connected0 "orders" VUndefined world0
    = (Thrown (VError TypeError text), world0).
Proof.
  destruct (publish_refuses_undefined_and_booleans connected0 world0 7%nat
              VUndefined eq_refl eq_refl (or_introl eq_refl))
    as (text & Hpublish & Hqueue).
  exists text. split.
  - apply Hpublish.
  - apply (Hqueue "orders" (VRef 4%nat) eq_refl).
Defined.



Lemma publishToQueue_needs_queues_at_work :
  publishToQueue connected0 "orders" (VStr "hello") (world_of heap_no_queues)
  = (Thrown (VError TypeError "Cannot read property 'publish' of undefined"),
     world_of heap_no_queues).
Proof.
  apply (publishToQueue_needs_queues connected0 (world_of heap_no_queues)
           "orders" (VStr "hello") eq_refl eq_refl).
Defined.

Lemma consume_registers_at_work :
  consume connected0 world0
  = (Normal tt, with_calls world0 [t_consume 7%nat (VStr "q1") false]).
Proof.
  apply (consume_registers_once connected0 world0 7%nat eq_refl eq_refl eq_refl).
Defined.

Lemma consume_needs_a_target_at_work :
  consume connected0 (world_of heap_bare)
  = (Thrown (VError TypeError "Cannot read property 'name' of undefined"),
     world_of heap_bare).
Proof.
  apply (consume_needs_a_target connected0 (world_of heap_bare) 7%nat
           eq_refl eq_refl eq_refl).
Defined.

Lemma delivery_is_contained_at_work :
  ∃ calls logged calls' logged',
    (∀ w, callback json parse_text resolves_then_throws connected0
            delivery_a1 w = (Normal tt, after w calls logged)) ∧
    (∀ w, deliver json parse_text resolves_then_throws connected0
            delivery_a1 w = (Normal tt, after w calls' logged')).
Proof.
  apply (delivery_is_contained json parse_text resolves_then_throws connected0
           7%nat delivery_a1 eq_refl).
Defined.

Lemma falsy_error_is_an_ack_at_work :
  deliver json parse_text resolves_zero connected0 delivery_a1 world0
  = (Normal tt, after world0 [t_ack 7%nat delivery_a1] []).
Proof.
  apply (falsy_error_is_an_ack json parse_text resolves_zero connected0 7%nat
           delivery_a1 payload_a1 (VNum 0) (VBool true) world0 eq_refl
           parse_text_a1 (or_introl eq_refl) eq_refl).
Defined.

Lemma requeue_flag_is_passed_on_at_work :
  deliver json parse_text resolves_error_null connected0 delivery_a1 world0
  = (Normal tt, after world0 [t_nack 7%nat delivery_a1 false VNull] []).
Proof.
  apply (requeue_flag_is_passed_on json parse_text resolves_error_null
           connected0 7%nat delivery_a1 payload_a1 failure VNull world0 eq_refl
           parse_text_a1 (or_introl eq_refl) eq_refl).
  discriminate.
Defined.

(** The declaration fails, the caller is told, and [publish] goes through. *)
Lemma publish_after_connect_at_work :
  (run env_declare_fails None (connect heap0 config0 told)).1
  = completed env_declare_fails
      [t_connect (VStr "amqp://localhost"); t_createConfirmChannel 3%nat;
       t_assertExchange 7%nat (VStr "ex") "topic"]
    ++ [CalledBack refused] ∧
  publish (connected_by heap0 config0 env_declare_fails)
    (VStr "orders.created") (VStr "hello") VUndefined world0
  = (Normal tt,
     with_calls world0
       [t_publish 7%nat (VStr "ex") (VStr "orders.created") "hello"
          VUndefined]) ∧
  publish (connected_by heap0 config0 env_unreachable)
    (VStr "orders.created") (VStr "hello") VUndefined world0
  = (Thrown (VError TypeError "Cannot read property 'publish' of undefined"),
     world0).
Proof.
  split_and!.
  - reflexivity.
  - apply (publish_after_connect heap0 config0 env_declare_fails world0
             (VStr "orders.created") "hello" VUndefined eq_refl eq_refl).
  - apply (publish_after_connect heap0 config0 env_unreachable world0
             (VStr "orders.created") "hello" VUndefined eq_refl eq_refl).
Defined.

Lemma connect_without_setup_at_work :
  (run env_ok None (connect heap_bare config0 told)).1
  = completed env_ok
      [t_connect (VStr "amqp://localhost"); t_createConfirmChannel 3%nat;
       t_assertExchange 7%nat (VStr "ex") "topic"]
    ++ [CalledBack VNull].
Proof.
  apply (connect_without_setup heap_bare config0 env_ok eq_refl eq_refl
           eq_refl).
  repeat constructor.
Defined.

(** A publish list keyed by name is passed over; the consume setup is made. *)
Lemma setup_is_skipped_at_work :
  issued (t_setupForPublish 7%nat config0)
    (run env_ok None (connect heap_keyed config0 told)).1 = false ∧
  issued (t_setupForConsume 7%nat config0)
    (run env_ok None (connect heap_keyed config0 told)).1 = true.
Proof.
  destruct (setup_is_skipped_silently heap_keyed config0 env_ok eq_refl)
    as [Hpublish _].
  split; [apply (Hpublish eq_refl)|reflexivity].
Defined.

End more_at_work.
